(** * The protocol editor page of lifekaizen/flow

    A shallow embedding of [web/src/pages/ProtocolEditorPage.tsx]: the
    plain-text codec of the Slate description ([serializeSlate],
    [deserializeSlate]), the hover handler of [ProtocolDraggableBlock], the
    edit overlay of [ProtocolEditorPage] with its block operations
    ([updateBlock], [moveBlock]) and the save callback ([protocolUpsert]). *)

From Stdlib Require Import ZArith String Ascii List Floats.
From stdpp Require Import base list gmap strings pretty.

Set Warnings "-register-all".

Local Open Scope Z_scope.

(** ** JavaScript values used by the page *)

(** Strings are sequences of characters, of which only the line break
    matters here; array indices are integers; the coordinates of the
    pointer and of bounding rectangles are IEEE doubles. *)

Module JS.

Definition newline : ascii := "010"%char.

(** [String.prototype.split] with the one-character separator ["\n"]:
    the pieces between consecutive separators, in order.  A string with
    [k] separators has [k + 1] pieces; the empty string has the single
    piece [""]. *)
Fixpoint split (str : string) : list string :=
  match str with
  | EmptyString => [EmptyString]
  | String c rest =>
      if Ascii.eqb c newline then EmptyString :: split rest
      else match split rest with
           | piece :: pieces => String c piece :: pieces
           | [] => [String c EmptyString]
           end
  end.

(** [Array.prototype.join]: the elements separated by [sep]; the empty
    array joins to the empty string. *)
Fixpoint join (sep : string) (parts : list string) : string :=
  match parts with
  | [] => EmptyString
  | [part] => part
  | part :: more => part +:+ sep +:+ join sep more
  end.

(** Truthiness of a string: only [""] is falsy. *)
Definition truthy_string (s : string) : bool :=
  match s with
  | EmptyString => false
  | String _ _ => true
  end.

(** Objects and arrays are always truthy. *)
Definition truthy_object {A : Type} (_ : A) : bool := true.

(** The numbers that occur as protocol ids: [parseInt] gives an integer or
    [NaN], the server an integer.  [Int z] is the double equal to [z]; ids
    are safe integers, which a template literal prints in decimal. *)
Inductive number : Type :=
| NaN
| Int (z : Z).

(** Truthiness of a number: [0] and [NaN] are falsy. *)
Definition truthy_number (n : number) : bool :=
  match n with
  | NaN => false
  | Int z => negb (z =? 0)
  end.

#[global] Instance number_eq_dec : EqDecision number.
Proof. solve_decision. Defined.

#[global] Instance number_countable : Countable number.
Proof.
  refine (inj_countable'
            (fun n => match n with NaN => None | Int z => Some z end)
            (fun o => match o with None => NaN | Some z => Int z end) _).
  by intros [].
Defined.

(** Truthiness of a value that may be [undefined] ([None]). *)
Definition truthy {A : Type} (truthy_value : A -> bool) (x : option A) : bool :=
  match x with
  | Some a => truthy_value a
  | None => false
  end.

(** The safe integers, [Number.MIN_SAFE_INTEGER] to
    [Number.MAX_SAFE_INTEGER]: the integers that a double holds exactly and
    that number-to-string prints digit by digit in decimal. *)
Definition safe_integer (z : Z) : Prop := - 2 ^ 53 < z < 2 ^ 53.

(** A possibly undefined number inside a template literal.  The decimal
    digits are what JavaScript prints for a safe integer; a larger number
    prints with the shortest digits that identify its double, and in
    exponent form from [1e21] on, which this definition does not follow:
    what is stated of the printed string is stated of safe integers. *)
Definition template (n : option number) : string :=
  match n with
  | None => "undefined"
  | Some NaN => "NaN"
  | Some (Int z) => pretty z
  end.

(** [x || y] where [x] may be [null] or [undefined] ([None]). *)
Definition or {A : Type} (truthy : A -> bool) (x : option A) (y : A) : A :=
  match x with
  | Some a => if truthy a then a else y
  | None => y
  end.

(** The truthy values of [x]; a falsy [x] on the left of [&&] stays falsy. *)
Definition truthy_only {A : Type} (truthy : A -> bool) (x : option A) : option A :=
  match x with
  | Some a => if truthy a then Some a else None
  | None => None
  end.

(** [arr[i]]: [undefined] ([None]) outside of the array. *)
Definition get {A : Type} (arr : list A) (i : Z) : option A :=
  if decide (0 <= i) then arr !! Z.to_nat i else None.

(** The array after [arr.splice(start, deleteCount, ...items)], with the
    clamping of [start] and [deleteCount] that ECMAScript prescribes. *)
Definition splice {A : Type} (arr : list A) (start deleteCount : Z)
    (items : list A) : list A :=
  let len := Z.of_nat (length arr) in
  let actualStart :=
    if decide (start < 0) then Z.max (len + start) 0 else Z.min start len in
  let actualDeleteCount := Z.min (Z.max deleteCount 0) (len - actualStart) in
  take (Z.to_nat actualStart) arr ++ items
    ++ drop (Z.to_nat (actualStart + actualDeleteCount)) arr.

(** What can be thrown. *)
Inductive exception : Type :=
| TypeError
| Error (message : string)
| Rejection (reason : string).

Inductive completion (A : Type) : Type :=
| normal (a : A)
| throw (e : exception).
Arguments normal {A} a.
Arguments throw {A} e.

(** [Array.prototype.map] with a callback that may throw: elements are
    visited from left to right and the first exception ends the call. *)
Fixpoint map {A B : Type} (f : A -> completion B) (arr : list A)
    : completion (list B) :=
  match arr with
  | [] => normal []
  | a :: rest =>
      match f a with
      | throw e => throw e
      | normal b =>
          match map f rest with
          | throw e => throw e
          | normal bs => normal (b :: bs)
          end
      end
  end.

End JS.

(** ** Code that changes state and may throw *)

(** A computation over a store [St]: its completion and the store it
    leaves, also when it throws. *)
Definition Eff (St A : Type) : Type := St -> JS.completion A * St.

#[global] Instance Eff_ret {St : Type} : MRet (Eff St) :=
  fun A a st => (JS.normal a, st).

#[global] Instance Eff_bind {St : Type} : MBind (Eff St) :=
  fun A B k m st =>
    match m st with
    | (JS.normal a, st') => k a st'
    | (JS.throw e, st') => (JS.throw e, st')
    end.

Definition Eff_throw {St A : Type} (e : JS.exception) : Eff St A :=
  fun st => (JS.throw e, st).

Definition Eff_modify {St : Type} (f : St -> St) : Eff St unit :=
  fun st => (JS.normal tt, f st).

(** [await p] for a promise that has settled as [c]. *)
Definition Eff_await {St A : Type} (c : JS.completion A) : Eff St A :=
  fun st => (c, st).

(** [try { body } finally { cleanup }]: the cleanup runs on the store the
    body left, whether the body completed or threw; the completion of the
    body is kept unless the cleanup itself throws. *)
Definition try_finally {St A : Type} (body : Eff St A) (cleanup : Eff St unit)
    : Eff St A :=
  fun st =>
    match body st with
    | (c, st') =>
        match cleanup st' with
        | (JS.normal _, st'') => (c, st'')
        | (JS.throw e, st'') => (JS.throw e, st'')
        end
    end.

(** ** Slate documents *)

(** A Slate [Node] of the description value is a text leaf [{ text }] or an
    element [{ children }]; the codec reads and writes these two properties
    only. *)
Inductive Node : Type :=
| Text (text : string)
| Element (children : list Node).

(** Slate's [Node.string]: the text of a leaf, the concatenated strings of
    the children of an element. *)
Fixpoint Node_string (n : Node) : string :=
  match n with
  | Text text => text
  | Element children => JS.join "" (List.map Node_string children)
  end.

Definition serializeSlate (value : list Node) : string :=
  JS.join (String JS.newline EmptyString) (List.map Node_string value).

Definition deserializeSlate (str : string) : list Node :=
  List.map (fun line => Element [Text line]) (JS.split str).

(** The normal form of a document, in the words of the specification: each
    paragraph's leaves are replaced by a single leaf holding their
    concatenation. *)
Definition normalize_paragraph (n : Node) : Node :=
  match n with
  | Text text => Text text
  | Element children =>
      Element [Text (JS.join "" (List.map Node_string children))]
  end.

Definition normalize (d : list Node) : list Node :=
  List.map normalize_paragraph d.

(** A paragraph with exactly one leaf child. *)
Definition one_leaf (n : Node) : bool :=
  match n with
  | Element [Text _] => true
  | _ => false
  end.

(** Leaves and elements. *)
Definition is_leaf (n : Node) : bool :=
  match n with
  | Text _ => true
  | Element _ => false
  end.

(** Whether a string holds a line break. *)
Fixpoint has_newline (s : string) : bool :=
  match s with
  | EmptyString => false
  | String c rest => Ascii.eqb c JS.newline || has_newline rest
  end.

(** ** Protocols and blocks *)

Inductive BlockType : Type :=
| text_question
| options_question
| plate_sampler
| plate_add_reagent
| plate_sequencer.

(** Modelled from the spec: [models/block-definition.ts] is not among the
    sources.  A block has a client-generated identity token, a type out of
    a fixed enumeration and type-specific fields that belong to the block
    editor; the page reads [id] only. *)
Record BlockDefinition : Type := {
  block_id : option string;
  block_type : BlockType;
  block_fields : list (string * string)
}.

(** The identity token held in an array slot. *)
Definition slot_token (slot : option BlockDefinition) : option string :=
  slot ≫= block_id.

(** Modelled from the spec: [models/protocol.ts] is not among the sources.
    A protocol has an optional numeric id, a name, a description persisted
    as one string, and an ordered sequence of blocks.  An array slot holds
    a block or [undefined] ([None]). *)
Record Protocol : Type := {
  protocol_id : option JS.number;
  protocol_name : option string;
  protocol_description : option string;
  protocol_blocks : option (list (option BlockDefinition))
}.

(** ** The drag-reorder controller: [ProtocolDraggableBlock] *)

Module DragItem.
Record t : Type := { index : Z }.
End DragItem.

Module DOMRect.
Record t : Type := { top : float; bottom : float }.
End DOMRect.

Module XYCoord.
Record t : Type := { x : float; y : float }.
End XYCoord.

Section ProtocolDraggableBlock.

(** The props of the component: its position [index] in the list and the
    [moveBlock] callback, which acts on the store [S] of whoever rendered
    the component. *)
Context {S : Type}.
Variable index : Z.
Variable moveBlock : Z -> Z -> S -> S.

(** The [hover] handler of the drop target.  [ref_current] is the bounding
    rectangle of the mounted element ([None] while [ref.current] is null),
    [clientOffset] what [monitor.getClientOffset()] returns.  The store is
    the dragged [item], which the handler mutates, and [S]. *)
Definition hover (ref_current : option DOMRect.t)
    (clientOffset : option XYCoord.t) : Eff (DragItem.t * S) unit :=
  fun '(item, s) =>
    match ref_current with
    | None => (JS.normal tt, (item, s))
    | Some hoverBoundingRect =>
        if decide (DragItem.index item = index) then (JS.normal tt, (item, s))
        else
          let hoverMiddleY :=
            PrimFloat.div
              (PrimFloat.sub (DOMRect.bottom hoverBoundingRect)
                             (DOMRect.top hoverBoundingRect)) 2%float in
          match clientOffset with
          | None => (JS.throw JS.TypeError, (item, s))
          | Some clientOffset =>
              let hoverClientY :=
                PrimFloat.sub (XYCoord.y clientOffset)
                              (DOMRect.top hoverBoundingRect) in
              if bool_decide (DragItem.index item < index)
                 && PrimFloat.ltb hoverClientY hoverMiddleY
              then (JS.normal tt, (item, s))
              else if bool_decide (DragItem.index item > index)
                      && PrimFloat.ltb hoverMiddleY hoverClientY
              then (JS.normal tt, (item, s))
              else
                (JS.normal tt,
                 ({| DragItem.index := index |},
                  moveBlock (DragItem.index item) index s))
          end
    end.

(** [n] hover events in a row with the pointer at rest: the same handler
    with the same rectangle and pointer offset, each on the store the one
    before left. *)
Fixpoint hovers (n : nat) (ref_current : option DOMRect.t)
    (clientOffset : option XYCoord.t) (st : DragItem.t * S)
    : DragItem.t * S :=
  match n with
  | O => st
  | Datatypes.S n' =>
      hovers n' ref_current clientOffset
        (snd (hover ref_current clientOffset st))
  end.

End ProtocolDraggableBlock.

(** A [moveBlock] callback that only counts how often it is called. *)
Definition countMove (dragIndex hoverIndex : Z) (calls : nat) : nat :=
  Datatypes.S calls.

(** ** The editor page: [ProtocolEditorPage] *)

(** The [useState] hooks of the page. *)
Record PageState : Type := {
  name : option string;
  description : option (list Node);
  blocks : option (list (option BlockDefinition));
  formSaving : bool;
  formSavedTime : option string
}.

(** The state at mount. *)
Definition initialState : PageState :=
  {| name := None; description := None; blocks := None;
     formSaving := false; formSavedTime := None |}.

Definition setName (v : string) (st : PageState) : PageState :=
  {| name := Some v; description := description st; blocks := blocks st;
     formSaving := formSaving st; formSavedTime := formSavedTime st |}.

Definition setDescription (v : list Node) (st : PageState) : PageState :=
  {| name := name st; description := Some v; blocks := blocks st;
     formSaving := formSaving st; formSavedTime := formSavedTime st |}.

Definition setBlocks (v : list (option BlockDefinition)) (st : PageState)
    : PageState :=
  {| name := name st; description := description st; blocks := Some v;
     formSaving := formSaving st; formSavedTime := formSavedTime st |}.

Definition setFormSaving (v : bool) (st : PageState) : PageState :=
  {| name := name st; description := description st; blocks := blocks st;
     formSaving := v; formSavedTime := formSavedTime st |}.

Definition setFormSavedTime (v : string) (st : PageState) : PageState :=
  {| name := name st; description := description st; blocks := blocks st;
     formSaving := formSaving st; formSavedTime := Some v |}.

Section Render.

(** What a render sees: the hooks [st] and the remote-cached record
    [protocol] that [protocolQuery] supplies ([None] for [undefined]). *)
Variable st : PageState.
Variable protocol : option Protocol.

Definition currentName : string :=
  JS.or JS.truthy_string (name st)
    (JS.or JS.truthy_string (protocol ≫= protocol_name) "").

Definition currentDescription : list Node :=
  JS.or JS.truthy_object (description st)
    (JS.or JS.truthy_object
       (deserializeSlate
          <$> JS.truthy_only JS.truthy_string (protocol ≫= protocol_description))
       [Text ""]).

Definition currentBlocks : list (option BlockDefinition) :=
  JS.or JS.truthy_object (blocks st)
    (JS.or JS.truthy_object (protocol ≫= protocol_blocks) []).

(** The array that [updateBlock] passes to [setBlocks]; reading [b.id] of an
    [undefined] slot throws. *)
Definition updatedBlocks (block : BlockDefinition)
    : JS.completion (list (option BlockDefinition)) :=
  JS.map
    (fun b =>
       match b with
       | None => JS.throw JS.TypeError
       | Some b' =>
           JS.normal
             (if decide (block_id b' = block_id block) then Some block else b)
       end)
    currentBlocks.

Definition updateBlock (block : option BlockDefinition)
    : JS.completion PageState :=
  match block with
  | None => JS.normal st
  | Some block =>
      match updatedBlocks block with
      | JS.normal bs => JS.normal (setBlocks bs st)
      | JS.throw e => JS.throw e
      end
  end.

(** The array that [moveBlock] passes to [setBlocks]. *)
Definition newBlocks (dragIndex hoverIndex : Z)
    : list (option BlockDefinition) :=
  let dragBlock := mjoin (JS.get currentBlocks dragIndex) in
  let newBlocks := currentBlocks in
  let newBlocks := JS.splice newBlocks dragIndex 1 [] in
  let newBlocks := JS.splice newBlocks hoverIndex 0 [dragBlock] in
  newBlocks.

(** The items of the "Add a new section" menu; [token] is the fresh
    [uuid.v4()]. *)
Definition addBlock (token : string) (type : BlockType) : PageState :=
  setBlocks
    (currentBlocks
       ++ [Some {| block_id := Some token; block_type := type;
                   block_fields := [] |}])
    st.

End Render.

Definition moveBlock (protocol : option Protocol) (dragIndex hoverIndex : Z)
    (st : PageState) : PageState :=
  setBlocks (newBlocks st protocol dragIndex hoverIndex) st.

(** ** Saving: [protocolUpsert] *)

Record Request : Type := {
  request_method : string;
  request_path : string;
  request_body : Protocol
}.

(** The store of the save callback: the hooks of the page, the
    [protocolCache] map of the [protocolsState] atom, and the calls of
    [apiFetch] made so far. *)
Record World : Type := {
  page : PageState;
  protocolCache : gmap JS.number Protocol;
  requests : list Request
}.

Definition on_page (f : PageState -> PageState) (w : World) : World :=
  {| page := f (page w); protocolCache := protocolCache w;
     requests := requests w |}.

Definition on_cache
    (f : gmap JS.number Protocol -> gmap JS.number Protocol) (w : World)
    : World :=
  {| page := page w; protocolCache := f (protocolCache w);
     requests := requests w |}.

Definition log_request (r : Request) (w : World) : World :=
  {| page := page w; protocolCache := protocolCache w;
     requests := requests w ++ [r] |}.

(** The collaborators of a save: how the promise of [auth0State] settles,
    how the server answers a request, and the clock. *)
Record Env : Type := {
  auth0 : JS.completion unit;
  server : Request -> JS.completion Protocol;
  moment_format : string
}.

(** The message of the error that the cache update throws. *)
Definition without_id : string :=
  "Received a protocol without an ID from server!".

Section Save.

Variable env : Env.

Definition apiFetch (method path : string) (body : Protocol)
    : Eff World Protocol :=
  let r := {| request_method := method; request_path := path;
              request_body := body |} in
  Eff_modify (log_request r) ;; Eff_await (server env r).

(** [set(protocolsState, updater)] with the updater of the callback. *)
Definition set_protocolsState (created : Protocol) : Eff World unit :=
  match protocol_id created with
  | Some i =>
      if JS.truthy_number i then Eff_modify (on_cache (insert i created))
      else Eff_throw (JS.Error without_id)
  | None => Eff_throw (JS.Error without_id)
  end.

Definition upsertMethod (protocol : Protocol) : string :=
  if JS.truthy JS.truthy_number (protocol_id protocol) then "PUT" else "POST".

Definition upsertPath (protocol : Protocol) : string :=
  if JS.truthy JS.truthy_number (protocol_id protocol)
  then "protocol/" +:+ JS.template (protocol_id protocol)
  else "protocol".

Definition protocolUpsert (protocol : Protocol) : Eff World unit :=
  Eff_modify (on_page (setFormSaving true)) ;;
  try_finally
    (Eff_await (auth0 env) ;;
     let method := upsertMethod protocol in
     let path := upsertPath protocol in
     created ← apiFetch method path protocol;
     set_protocolsState created)
    (Eff_modify (on_page (setFormSaving false)) ;;
     Eff_modify (on_page (setFormSavedTime (moment_format env)))).

(** The [onClick] of the save button; [routeId] is [parseInt(id)] of the
    route parameter and [protocol] the remote-cached record of the render. *)
Definition saveClicked (routeId : JS.number) (protocol : option Protocol)
    : Eff World unit :=
  fun w =>
    protocolUpsert
      {| protocol_id := Some routeId;
         protocol_name := Some (currentName (page w) protocol);
         protocol_description :=
           Some (serializeSlate (currentDescription (page w) protocol));
         protocol_blocks := Some (currentBlocks (page w) protocol) |}
      w.

End Save.

(** ** The list of block editors and a drag gesture over it *)

(** The props with which a render mounts a [ProtocolDraggableBlock]. *)
Module Draggable.
Record t : Type := { key : string; index : Z; block : BlockDefinition }.
End Draggable.

(** [currentBlocks.map((block, index) => ...)] of the render: a slot that
    is [undefined], or whose block has no truthy [id], mounts nothing; any
    other slot mounts a draggable block keyed by the block's [id]. *)
Definition renderedBlocks (st : PageState) (protocol : option Protocol)
    : list (option Draggable.t) :=
  imap
    (fun index block =>
       match block with
       | None => None
       | Some block =>
           match block_id block with
           | None => None
           | Some token =>
               if JS.truthy_string token
               then Some {| Draggable.key := token;
                            Draggable.index := Z.of_nat index;
                            Draggable.block := block |}
               else None
           end
       end)
    (currentBlocks st protocol).

(** The item that [useDrag] hands to the drop targets when a gesture starts
    on a mounted block. *)
Definition dragItem (source : Draggable.t) : DragItem.t :=
  {| DragItem.index := Draggable.index source |}.

(** A hover event of a gesture: the position of the hovered block, its
    bounding rectangle and the pointer offset. *)
Record HoverEvent : Type := {
  hovered : Z;
  hovered_rect : option DOMRect.t;
  pointer : option XYCoord.t
}.

(** A gesture over the page: each event is handled by the [hover] of the
    hovered block with the page's [moveBlock], on the hooks that the event
    before left (the page renders between two events). *)
Fixpoint gesture (protocol : option Protocol) (events : list HoverEvent)
    (s : DragItem.t * PageState) : DragItem.t * PageState :=
  match events with
  | [] => s
  | e :: events' =>
      gesture protocol events'
        (snd (hover (hovered e) (moveBlock protocol) (hovered_rect e)
                (pointer e) s))
  end.

(** The invariant of the data model on a block list: every slot holds a
    block and no identity token occurs twice. *)
Definition well_formed (bs : list (option BlockDefinition)) : Prop :=
  Forall is_Some bs /\ NoDup (slot_token <$> bs).

(** The number of line breaks of a string. *)
Fixpoint count_newlines (s : string) : nat :=
  match s with
  | EmptyString => 0
  | String c rest =>
      (if Ascii.eqb c JS.newline then 1 else 0) + count_newlines rest
  end%nat.

(** * Properties *)

(** ** The codec *)

Section Codec.

Let nl : string := String JS.newline EmptyString.

Lemma split_cons (str : string) :
  exists piece pieces, JS.split str = piece :: pieces.
Proof.
  destruct str as [|c rest]; simpl; [by eauto|].
  destruct (Ascii.eqb c JS.newline); [by eauto|].
  destruct (JS.split rest); by eauto.
Qed.

Lemma join_cons_char sep c piece pieces :
  JS.join sep (String c piece :: pieces)
  = String c (JS.join sep (piece :: pieces)).
Proof. by destruct pieces. Qed.

Lemma join_split (str : string) : JS.join nl (JS.split str) = str.
Proof.
  induction str as [|c rest IH]; [done|].
  simpl. destruct (Ascii.eqb_spec c JS.newline) as [->|Hc].
  - destruct (split_cons rest) as (piece & pieces & Hsplit).
    rewrite Hsplit in IH |- *. simpl in *. by rewrite IH.
  - destruct (split_cons rest) as (piece & pieces & Hsplit).
    rewrite Hsplit in IH |- *. by rewrite join_cons_char, IH.
Qed.

Lemma Node_string_deserialize (str : string) :
  List.map Node_string (deserializeSlate str) = JS.split str.
Proof.
  unfold deserializeSlate. rewrite List.map_map. simpl.
  induction (JS.split str) as [|line lines IH]; [done|]. simpl. by rewrite IH.
Qed.

(** C10: saving a freshly loaded description gives back the persisted
    string: [serializeSlate (deserializeSlate str) = str] for every string,
    with or without line breaks, the empty string included. *)
Theorem serialize_deserialize (str : string) :
  serializeSlate (deserializeSlate str) = str.
Proof.
  unfold serializeSlate. rewrite Node_string_deserialize. apply join_split.
Qed.

(** A line without a line break is a single piece. *)
Lemma split_line (line : string) :
  has_newline line = false -> JS.split line = [line].
Proof.
  induction line as [|c rest IH]; [done|]. simpl.
  intros [Hc Hrest]%orb_false_iff. rewrite Hc, IH; done.
Qed.

Lemma split_line_break (line rest : string) :
  has_newline line = false ->
  JS.split (line +:+ String JS.newline rest) = line :: JS.split rest.
Proof.
  induction line as [|c line IH]; [done|]. simpl.
  intros [Hc Hline]%orb_false_iff. by rewrite Hc, IH.
Qed.

Lemma split_join (lines : list string) :
  lines ≠ [] ->
  Forall (fun line => has_newline line = false) lines ->
  JS.split (JS.join nl lines) = lines.
Proof.
  induction lines as [|line lines IH]; [done|]. intros _ Hlines.
  apply Forall_cons in Hlines as [Hline Hlines].
  destruct lines as [|line' lines]; [by apply split_line|].
  change (JS.join nl (line :: line' :: lines))
    with (line +:+ String JS.newline (JS.join nl (line' :: lines))).
  rewrite split_line_break by done. f_equal. by apply IH.
Qed.

Lemma normalize_paragraph_element (n : Node) :
  is_leaf n = false -> normalize_paragraph n = Element [Text (Node_string n)].
Proof. by destruct n. Qed.

Lemma normalize_one_leaf (d : list Node) :
  forallb one_leaf d = true -> normalize d = d.
Proof.
  induction d as [|n d IH]; [done|]. simpl.
  intros [Hn Hd]%andb_true_iff. rewrite IH by done. f_equal.
  destruct n as [|[|[] []]]; done.
Qed.

(** C7, as the code has it: for a document that is not empty, whose
    top-level nodes are paragraphs and whose paragraphs hold no line break,
    [deserializeSlate (serializeSlate d)] is [normalize d]; it is [d] itself
    when moreover every paragraph has exactly one leaf. *)
Theorem deserialize_serialize (d : list Node) :
  d ≠ [] ->
  Forall (fun n => is_leaf n = false /\ has_newline (Node_string n) = false) d ->
  deserializeSlate (serializeSlate d) = normalize d
  /\ (forallb one_leaf d = true -> deserializeSlate (serializeSlate d) = d).
Proof.
  intros Hne Hd.
  assert (deserializeSlate (serializeSlate d) = normalize d) as Hnorm.
  { unfold deserializeSlate, serializeSlate. fold nl.
    rewrite split_join.
    - rewrite List.map_map. unfold normalize.
      apply List.map_ext_in. intros n Hn%list_elem_of_In.
      rewrite Forall_forall in Hd. destruct (Hd n Hn) as [Hel _].
      by rewrite normalize_paragraph_element.
    - by destruct d.
    - rewrite Forall_forall in Hd. rewrite Forall_forall.
      intros line (n & <- & Hn%list_elem_of_In)%list_elem_of_In%List.in_map_iff.
      by apply Hd. }
  split; [done|]. intros Hone. by rewrite Hnorm, normalize_one_leaf.
Qed.

Lemma deserialize_serialize_witness :
  let d := [Element [Text "Mix"; Text " well"]; Element [Text "Wait"]] in
  deserializeSlate (serializeSlate d) = normalize d
  /\ (forallb one_leaf d = true -> deserializeSlate (serializeSlate d) = d).
Proof.
  apply deserialize_serialize; [done|].
  repeat constructor.
Defined.

(** C7 fails as stated: a one-leaf paragraph whose leaf holds a line break
    (a soft break typed into the editor) comes back as two paragraphs, and
    the empty document comes back as one empty paragraph. *)
Lemma deserialize_serialize_counterexample :
  let d := [Element [Text (String "a" (String JS.newline "b"))]] in
  (forallb one_leaf d = true /\ normalize d = d
   /\ deserializeSlate (serializeSlate d)
      = [Element [Text "a"]; Element [Text "b"]]
   /\ deserializeSlate (serializeSlate d) ≠ d)
  /\ forallb one_leaf [] = true
  /\ deserializeSlate (serializeSlate []) ≠ normalize [].
Proof. repeat split; done. Qed.

End Codec.

(** ** The edit overlay *)

Section Overlay.

Variable st : PageState.
Variable protocol : option Protocol.

Lemma currentName_overlay (s : string) :
  name st = Some s -> JS.truthy_string s = true -> currentName st protocol = s.
Proof. unfold currentName. intros -> Hs. simpl. by rewrite Hs. Qed.

Lemma currentName_remote (s : string) :
  JS.truthy JS.truthy_string (name st) = false ->
  protocol ≫= protocol_name = Some s ->
  currentName st protocol = s.
Proof.
  unfold currentName. intros Hname ->.
  destruct (name st) as [s'|]; simpl in *; [rewrite Hname|]; by destruct s.
Qed.

Lemma currentDescription_overlay (d : list Node) :
  description st = Some d -> currentDescription st protocol = d.
Proof. unfold currentDescription. by intros ->. Qed.

Lemma currentDescription_remote (s : string) :
  description st = None ->
  protocol ≫= protocol_description = Some s ->
  JS.truthy_string s = true ->
  currentDescription st protocol = deserializeSlate s.
Proof. unfold currentDescription. intros -> -> Hs. simpl. by rewrite Hs. Qed.

Lemma currentDescription_default :
  description st = None ->
  JS.truthy JS.truthy_string (protocol ≫= protocol_description) = false ->
  currentDescription st protocol = [Text ""].
Proof.
  unfold currentDescription. intros -> Hremote.
  destruct (protocol ≫= protocol_description) as [s|]; simpl in *;
    [by rewrite Hremote|done].
Qed.

Lemma currentBlocks_overlay (bs : list (option BlockDefinition)) :
  blocks st = Some bs -> currentBlocks st protocol = bs.
Proof. unfold currentBlocks. by intros ->. Qed.

Lemma currentBlocks_remote :
  blocks st = None ->
  currentBlocks st protocol = default [] (protocol ≫= protocol_blocks).
Proof.
  unfold currentBlocks. intros ->. by destruct (protocol ≫= protocol_blocks).
Qed.

End Overlay.

(** C1, at the input where the code departs from it: the user has cleared
    the title of a protocol whose cached record is named ["A"].  The name
    overlay is the empty string, not null, yet the page displays ["A"];
    an emptied block list or description overlay is displayed as it is. *)
Theorem currentName_cleared :
  let remote :=
    Some {| protocol_id := Some (JS.Int 7); protocol_name := Some "A";
            protocol_description := Some "steps";
            protocol_blocks := Some [None] |} in
  name (setName "" initialState) = Some ""
  /\ currentName (setName "" initialState) remote = "A"
  /\ currentBlocks (setBlocks [] initialState) remote = []
  /\ currentDescription (setDescription [] initialState) remote = [].
Proof. done. Qed.

(** C9, at the input where the code departs from it: with no overlay and no
    remote description the page displays a bare empty leaf, which is not
    the one-paragraph document that [deserializeSlate ""] builds. *)
Theorem currentDescription_bare_leaf :
  currentDescription initialState None = [Text ""]
  /\ deserializeSlate "" = [Element [Text ""]]
  /\ currentDescription initialState None ≠ deserializeSlate "".
Proof. done. Qed.

(** ** The ordered-block store *)

Section Blocks.

Variable st : PageState.
Variable protocol : option Protocol.

(** What [updateBlock] does to one defined block. *)
Let replaced (block b : BlockDefinition) : BlockDefinition :=
  if decide (block_id b = block_id block) then block else b.

Lemma updatedBlocks_defined (bs : list BlockDefinition) (block : BlockDefinition) :
  currentBlocks st protocol = Some <$> bs ->
  updatedBlocks st protocol block = JS.normal (Some <$> (replaced block <$> bs)).
Proof.
  unfold updatedBlocks. intros ->.
  induction bs as [|b bs IH]; [done|].
  rewrite !fmap_cons. simpl. rewrite IH. unfold replaced.
  by destruct (decide (block_id b = block_id block)).
Qed.

Lemma replaced_no_match (bs : list BlockDefinition) (block : BlockDefinition) :
  (forall b, b ∈ bs -> block_id b ≠ block_id block) ->
  replaced block <$> bs = bs.
Proof.
  induction bs as [|b bs IH]; [done|]. intros Hbs.
  rewrite fmap_cons, IH.
  - unfold replaced. rewrite decide_False; [done|]. apply Hbs. by left.
  - intros b' Hb'. apply Hbs. by right.
Qed.

Lemma replaced_unique (bs : list BlockDefinition) (block b : BlockDefinition)
    (i : nat) :
  bs !! i = Some b ->
  block_id b = block_id block ->
  (forall j b', bs !! j = Some b' -> block_id b' = block_id block -> j = i) ->
  replaced block <$> bs = <[i := block]> bs.
Proof.
  intros Hi Hb Hunique. apply list_eq. intros j.
  rewrite list_lookup_fmap.
  destruct (decide (j = i)) as [->|Hj].
  - rewrite list_lookup_insert_eq by (by eapply lookup_lt_Some).
    rewrite Hi. simpl. unfold replaced. by rewrite decide_True.
  - rewrite list_lookup_insert_ne by done.
    destruct (bs !! j) as [b'|] eqn:Hb'; [|done]. simpl. unfold replaced.
    rewrite decide_False; [done|]. intros Heq. by apply Hj, (Hunique j b').
Qed.

(** C8: on a list of blocks, [updateBlock] with a block whose identity
    token matches no element stores a list equal to the displayed one and
    does not throw; otherwise every matching element is replaced by the
    updated block, the other elements stay where they are, and when the
    token matches one element only, that element alone is replaced. *)
Theorem updateBlock_by_identity (bs : list BlockDefinition)
    (block : BlockDefinition) :
  currentBlocks st protocol = Some <$> bs ->
  exists bs',
    updateBlock st protocol (Some block) = JS.normal (setBlocks (Some <$> bs') st)
    /\ length bs' = length bs
    /\ ((forall b, b ∈ bs -> block_id b ≠ block_id block) -> bs' = bs)
    /\ (forall i b, bs !! i = Some b -> block_id b = block_id block ->
          bs' !! i = Some block)
    /\ (forall i b, bs !! i = Some b -> block_id b ≠ block_id block ->
          bs' !! i = Some b)
    /\ (forall i b, bs !! i = Some b -> block_id b = block_id block ->
          (forall j b', bs !! j = Some b' -> block_id b' = block_id block -> j = i) ->
          bs' = <[i := block]> bs).
Proof.
  intros Hcurrent. exists (replaced block <$> bs).
  split; [|split; [|split; [|split; [|split]]]].
  - unfold updateBlock. by rewrite (updatedBlocks_defined bs).
  - apply length_fmap.
  - apply replaced_no_match.
  - intros i b Hi Hb. rewrite list_lookup_fmap, Hi. simpl.
    unfold replaced. by rewrite decide_True.
  - intros i b Hi Hb. rewrite list_lookup_fmap, Hi. simpl.
    unfold replaced. by rewrite decide_False.
  - intros i b. apply replaced_unique.
Qed.

End Blocks.

Lemma updateBlock_by_identity_witness :
  let a := {| block_id := Some "a"; block_type := text_question;
              block_fields := [] |} in
  let b := {| block_id := Some "b"; block_type := plate_sampler;
              block_fields := [] |} in
  let b' := {| block_id := Some "b"; block_type := plate_sampler;
               block_fields := [("plateCount", "4")] |} in
  let st := setBlocks [Some a; Some b] initialState in
  currentBlocks st None = Some <$> [a; b]
  /\ exists bs',
       updateBlock st None (Some b') = JS.normal (setBlocks (Some <$> bs') st)
       /\ bs' = [a; b'].
Proof.
  intros a b b' st. split; [reflexivity|].
  destruct (updateBlock_by_identity st None [a; b] b' eq_refl)
    as (bs' & Hupdate & _ & _ & _ & _ & Hunique).
  exists bs'. split; [exact Hupdate|].
  apply (Hunique 1%nat b); [reflexivity|reflexivity|].
  intros [|[|j]] b'' Hj Hid; simpl in Hj; [|reflexivity|discriminate].
  injection Hj as <-. discriminate.
Defined.

Section Move.

Lemma splice_remove {A : Type} (arr : list A) (i : Z) :
  0 <= i < Z.of_nat (length arr) ->
  JS.splice arr i 1 [] = delete (Z.to_nat i) arr.
Proof.
  intros Hi. unfold JS.splice. cbv zeta.
  rewrite decide_False by lia.
  replace (Z.min i (Z.of_nat (length arr))) with i by lia.
  replace (Z.min (Z.max 1 0) (Z.of_nat (length arr) - i)) with 1 by lia.
  replace (Z.to_nat (i + 1)) with (Datatypes.S (Z.to_nat i)) by lia.
  by rewrite delete_take_drop.
Qed.

Lemma splice_add {A : Type} (arr : list A) (i : Z) (items : list A) :
  0 <= i <= Z.of_nat (length arr) ->
  JS.splice arr i 0 items
  = take (Z.to_nat i) arr ++ items ++ drop (Z.to_nat i) arr.
Proof.
  intros Hi. unfold JS.splice. cbv zeta.
  rewrite decide_False by lia.
  replace (Z.min i (Z.of_nat (length arr))) with i by lia.
  replace (Z.min (Z.max 0 0) (Z.of_nat (length arr) - i)) with 0 by lia.
  by rewrite Z.add_0_r.
Qed.

Lemma get_in_range {A : Type} (arr : list A) (i : Z) :
  0 <= i < Z.of_nat (length arr) ->
  exists a, arr !! Z.to_nat i = Some a /\ JS.get arr i = Some a.
Proof.
  intros Hi. unfold JS.get. rewrite decide_True by lia.
  destruct (lookup_lt_is_Some_2 arr (Z.to_nat i)) as [a Ha]; [lia|]. eauto.
Qed.

(** Taking an element out of a list and putting it back anywhere permutes
    the list. *)
Lemma reinsert_Permutation {A : Type} (l : list A) (i j : nat) (a : A) :
  l !! i = Some a ->
  take j (delete i l) ++ a :: drop j (delete i l) ≡ₚ l.
Proof.
  intros Hi. rewrite <-Permutation_middle, take_drop.
  symmetry. by apply delete_Permutation.
Qed.

(** C4: with both indices inside the displayed list, [moveBlock] stores
    the list from which the element at [dragIndex] was removed and put back
    at position [hoverIndex] of what remained; the stored list has the same
    length, is a permutation of the displayed one (so the identity tokens
    are the same multiset) and holds the moved block at [hoverIndex]. *)
Theorem moveBlock_in_range (st : PageState) (protocol : option Protocol)
    (dragIndex hoverIndex : Z) :
  let bs := currentBlocks st protocol in
  0 <= dragIndex < Z.of_nat (length bs) ->
  0 <= hoverIndex < Z.of_nat (length bs) ->
  exists dragBlock,
    let rest := delete (Z.to_nat dragIndex) bs in
    let moved := newBlocks st protocol dragIndex hoverIndex in
    bs !! Z.to_nat dragIndex = Some dragBlock
    /\ blocks (moveBlock protocol dragIndex hoverIndex st) = Some moved
    /\ moved = take (Z.to_nat hoverIndex) rest
               ++ dragBlock :: drop (Z.to_nat hoverIndex) rest
    /\ length moved = length bs
    /\ moved ≡ₚ bs
    /\ slot_token <$> moved ≡ₚ slot_token <$> bs
    /\ moved !! Z.to_nat hoverIndex = Some dragBlock.
Proof.
  intros bs Hdrag Hhover.
  destruct (get_in_range bs dragIndex Hdrag) as (dragBlock & Hlookup & Hget).
  exists dragBlock. cbv zeta.
  assert (length (delete (Z.to_nat dragIndex) bs) = pred (length bs)) as Hrest.
  { rewrite length_delete; [lia|]. by exists dragBlock. }
  assert (newBlocks st protocol dragIndex hoverIndex
          = take (Z.to_nat hoverIndex) (delete (Z.to_nat dragIndex) bs)
            ++ dragBlock :: drop (Z.to_nat hoverIndex)
                 (delete (Z.to_nat dragIndex) bs)) as ->.
  { unfold newBlocks. fold bs. rewrite Hget. simpl.
    rewrite splice_remove by done. rewrite splice_add by lia. done. }
  assert (take (Z.to_nat hoverIndex) (delete (Z.to_nat dragIndex) bs)
            ++ dragBlock :: drop (Z.to_nat hoverIndex)
                 (delete (Z.to_nat dragIndex) bs) ≡ₚ bs) as Hperm
    by (by apply reinsert_Permutation).
  split; [done|]. split.
  { unfold moveBlock. simpl. f_equal. unfold newBlocks. fold bs.
    rewrite Hget. simpl. rewrite splice_remove by done.
    by rewrite splice_add by lia. }
  split; [done|]. split; [by rewrite Hperm|]. split; [done|].
  split; [by rewrite Hperm|].
  rewrite lookup_app_r; rewrite length_take; [|lia].
  replace (Z.to_nat hoverIndex
           - Z.to_nat hoverIndex `min` length (delete (Z.to_nat dragIndex) bs))%nat
    with 0%nat by lia.
  done.
Qed.

Lemma moveBlock_in_range_witness :
  let blk token :=
    Some {| block_id := Some token; block_type := text_question;
            block_fields := [] |} in
  let st := setBlocks [blk "a"; blk "b"; blk "c"; blk "d"] initialState in
  newBlocks st None 0 2 = [blk "b"; blk "c"; blk "a"; blk "d"]
  /\ exists dragBlock,
       currentBlocks st None !! Z.to_nat 0 = Some dragBlock
       /\ newBlocks st None 0 2 !! Z.to_nat 2 = Some dragBlock
       /\ newBlocks st None 0 2 ≡ₚ currentBlocks st None.
Proof.
  intros blk st. split; [reflexivity|].
  destruct (moveBlock_in_range st None 0 2) as (dragBlock & H);
    [simpl; lia|simpl; lia|].
  exists dragBlock. cbv zeta in H. tauto.
Defined.

End Move.

(** ** The drag-reorder controller *)

Section Hover.

Context {S : Type}.
Variable index : Z.
Variable moveBlock : Z -> Z -> S -> S.
Variable ref_current : option DOMRect.t.
Variable clientOffset : option XYCoord.t.

Let hover1 := hover index moveBlock ref_current clientOffset.
Let hoverN (n : nat) := hovers index moveBlock n ref_current clientOffset.

(** The guard of the handler: nothing happens over the item's own slot. *)
Lemma hover_own_slot (item : DragItem.t) (s : S) :
  DragItem.index item = index -> snd (hover1 (item, s)) = (item, s).
Proof.
  intros Hitem. unfold hover1, hover. destruct ref_current; [|done].
  by rewrite decide_True.
Qed.

(** A hover event leaves the store as it was or moves once. *)
Lemma hover_cases (item : DragItem.t) (s : S) :
  snd (hover1 (item, s)) = (item, s)
  \/ snd (hover1 (item, s))
     = ({| DragItem.index := index |}, moveBlock (DragItem.index item) index s).
Proof.
  unfold hover1, hover. destruct ref_current as [rect|]; [|by left].
  case_decide; [by left|].
  destruct clientOffset as [offset|]; [|by left].
  repeat (match goal with |- context [if ?c then _ else _] => destruct c end);
    auto.
Qed.

Lemma hover_twice (st : DragItem.t * S) :
  snd (hover1 (snd (hover1 st))) = snd (hover1 st).
Proof.
  destruct st as [item s].
  destruct (hover_cases item s) as [Hsame|Hmoved].
  - by rewrite !Hsame.
  - rewrite Hmoved. by apply hover_own_slot.
Qed.

Lemma hovers_succ (n : nat) (st : DragItem.t * S) :
  hoverN (Datatypes.S n) st = snd (hover1 st).
Proof.
  revert st. induction n as [|n IH]; intros st; [done|].
  change (hoverN (Datatypes.S (Datatypes.S n)) st)
    with (hoverN (Datatypes.S n) (snd (hover1 st))).
  by rewrite IH, hover_twice.
Qed.

End Hover.

(** C3: over a mounted item in another slot, with the pointer offset known,
    the handler does nothing while the item is dragged downwards and the
    pointer is above the middle of the hovered box, nothing while it is
    dragged upwards and the pointer is below the middle, and in every other
    case calls [moveBlock (item.index, index)] and records [index] as the
    item's index. *)
Theorem hover_decision {S : Type} (index : Z) (moveBlock : Z -> Z -> S -> S)
    (hoverBoundingRect : DOMRect.t) (clientOffset : XYCoord.t)
    (item : DragItem.t) (s : S) :
  let dragIndex := DragItem.index item in
  let hoverMiddleY :=
    PrimFloat.div
      (PrimFloat.sub (DOMRect.bottom hoverBoundingRect)
                     (DOMRect.top hoverBoundingRect)) 2%float in
  let hoverClientY :=
    PrimFloat.sub (XYCoord.y clientOffset) (DOMRect.top hoverBoundingRect) in
  let result :=
    hover index moveBlock (Some hoverBoundingRect) (Some clientOffset) (item, s)
  in
  dragIndex ≠ index ->
  (dragIndex < index -> PrimFloat.ltb hoverClientY hoverMiddleY = true ->
   result = (JS.normal tt, (item, s)))
  /\ (dragIndex > index -> PrimFloat.ltb hoverMiddleY hoverClientY = true ->
      result = (JS.normal tt, (item, s)))
  /\ (~ (dragIndex < index /\ PrimFloat.ltb hoverClientY hoverMiddleY = true) ->
      ~ (dragIndex > index /\ PrimFloat.ltb hoverMiddleY hoverClientY = true) ->
      result
      = (JS.normal tt,
         ({| DragItem.index := index |}, moveBlock dragIndex index s))).
Proof.
  intros dragIndex hoverMiddleY hoverClientY result Hslot.
  subst result. unfold hover. rewrite decide_False by done.
  fold dragIndex hoverMiddleY hoverClientY.
  split; [|split].
  - intros Hdown ->. by rewrite bool_decide_true.
  - intros Hup ->. rewrite (bool_decide_false (dragIndex < index)) by lia.
    by rewrite bool_decide_true.
  - intros Hdown Hup.
    destruct (bool_decide_reflect (dragIndex < index)) as [Hlt|Hlt];
      destruct (bool_decide_reflect (dragIndex > index)) as [Hgt|Hgt];
      destruct (PrimFloat.ltb hoverClientY hoverMiddleY) eqn:Habove;
      destruct (PrimFloat.ltb hoverMiddleY hoverClientY) eqn:Hbelow;
      simpl; try done; tauto.
Qed.

Lemma hover_decision_witness :
  let rect := {| DOMRect.top := 100; DOMRect.bottom := 200 |} in
  let below := {| XYCoord.x := 12; XYCoord.y := 160 |} in
  let above := {| XYCoord.x := 12; XYCoord.y := 140 |} in
  let item := {| DragItem.index := 0 |} in
  hover 1 countMove (Some rect) (Some above) (item, 0%nat)
  = (JS.normal tt, (item, 0%nat))
  /\ hover 1 countMove (Some rect) (Some below) (item, 0%nat)
     = (JS.normal tt, ({| DragItem.index := 1 |}, 1%nat)).
Proof.
  intros rect below above item. split.
  - destruct (hover_decision 1 countMove rect above item 0%nat) as (Hskip & _);
      [discriminate|].
    apply Hskip; reflexivity.
  - destruct (hover_decision 1 countMove rect below item 0%nat)
      as (_ & _ & Hmove); [discriminate|].
    apply Hmove; [intros [_ H]|intros [H _]]; vm_compute in H; discriminate.
Defined.

(** C6: with the pointer at rest over one item, every hover event after
    the first leaves the dragged item and the store as the first left them,
    whatever [moveBlock] does; counted, [moveBlock] is called once at
    most. *)
Theorem hover_at_rest {S : Type} (index : Z) (moveBlock : Z -> Z -> S -> S)
    (ref_current : option DOMRect.t) (clientOffset : option XYCoord.t)
    (item : DragItem.t) (s : S) (calls n : nat) :
  hovers index moveBlock (Datatypes.S n) ref_current clientOffset (item, s)
  = snd (hover index moveBlock ref_current clientOffset (item, s))
  /\ (snd (hovers index countMove n ref_current clientOffset (item, calls))
      <= Datatypes.S calls)%nat.
Proof.
  split; [apply hovers_succ|].
  destruct n as [|n]; [simpl; lia|].
  rewrite hovers_succ.
  destruct (hover_cases index countMove ref_current clientOffset item calls)
    as [-> | ->]; simpl; unfold countMove; lia.
Qed.

(** ** Saving *)

Ltac run_save :=
  unfold protocolUpsert, try_finally, apiFetch, set_protocolsState,
    mbind, Eff_bind, Eff_modify, Eff_await, Eff_throw;
  cbn beta iota.

Section Saving.

Variable env : Env.
Variable protocol : Protocol.
Variable w : World.

(** The request of a save and the cleanup of its [finally] block. *)
Let request : Request :=
  {| request_method := upsertMethod protocol;
     request_path := upsertPath protocol;
     request_body := protocol |}.

Let cleanup (w' : World) : World :=
  on_page (setFormSavedTime (moment_format env))
    (on_page (setFormSaving false) w').

Let begun : World := on_page (setFormSaving true) w.

(** The identity source fails: nothing is sent. *)
Lemma protocolUpsert_unauthenticated (e : JS.exception) :
  auth0 env = JS.throw e ->
  protocolUpsert env protocol w = (JS.throw e, cleanup begun).
Proof. intros Hauth. run_save. by rewrite Hauth. Qed.

(** The transport fails. *)
Lemma protocolUpsert_rejected (e : JS.exception) :
  auth0 env = JS.normal tt ->
  server env request = JS.throw e ->
  protocolUpsert env protocol w
  = (JS.throw e, cleanup (log_request request begun)).
Proof.
  intros Hauth Hserver. run_save. rewrite Hauth. cbn beta iota.
  fold request. by rewrite Hserver.
Qed.

(** The server answers with a record whose id is truthy. *)
Lemma protocolUpsert_created (created : Protocol) (i : JS.number) :
  auth0 env = JS.normal tt ->
  server env request = JS.normal created ->
  protocol_id created = Some i ->
  JS.truthy_number i = true ->
  protocolUpsert env protocol w
  = (JS.normal tt,
     cleanup (on_cache (insert i created) (log_request request begun))).
Proof.
  intros Hauth Hserver Hid Hi. run_save. rewrite Hauth. cbn beta iota.
  fold request. rewrite Hserver. cbn beta iota. by rewrite Hid, Hi.
Qed.

(** The server answers with a record whose id is missing or falsy. *)
Lemma protocolUpsert_without_id (created : Protocol) :
  auth0 env = JS.normal tt ->
  server env request = JS.normal created ->
  JS.truthy JS.truthy_number (protocol_id created) = false ->
  protocolUpsert env protocol w
  = (JS.throw (JS.Error without_id), cleanup (log_request request begun)).
Proof.
  intros Hauth Hserver Hid. run_save. rewrite Hauth. cbn beta iota.
  fold request. rewrite Hserver. cbn beta iota.
  destruct (protocol_id created) as [i|]; simpl in Hid; [by rewrite Hid|done].
Qed.

(** Every save ends in one of the four ways above. *)
Lemma protocolUpsert_outcome :
  exists c w', protocolUpsert env protocol w = (c, cleanup w')
               /\ page w' = page begun
               /\ (protocolCache w' = protocolCache w \/ c = JS.normal tt).
Proof.
  destruct (auth0 env) as [[]|e] eqn:Hauth.
  - destruct (server env request) as [created|e] eqn:Hserver.
    + destruct (JS.truthy JS.truthy_number (protocol_id created)) eqn:Hid.
      * destruct (protocol_id created) as [i|] eqn:Hcreated; [|done].
        eexists _, _. split; [by eapply protocolUpsert_created|]. auto.
      * eexists _, _. split; [by eapply protocolUpsert_without_id|]. auto.
    + eexists _, _. split; [by eapply protocolUpsert_rejected|]. auto.
  - eexists _, _. split; [by eapply protocolUpsert_unauthenticated|]. auto.
Qed.

End Saving.

(** C2: however a save ends, the saving flag is false again and the
    last-saved time is the time of the cleanup; a transport failure is
    thrown on to the caller; and when the server's record lacks an id the
    save throws and the protocol cache is as it was. *)
Theorem protocolUpsert_cleanup (env : Env) (protocol : Protocol) (w : World) :
  let request :=
    {| request_method := upsertMethod protocol;
       request_path := upsertPath protocol;
       request_body := protocol |} in
  let c := fst (protocolUpsert env protocol w) in
  let w' := snd (protocolUpsert env protocol w) in
  formSaving (page w') = false
  /\ formSavedTime (page w') = Some (moment_format env)
  /\ (forall e, auth0 env = JS.normal tt -> server env request = JS.throw e ->
        c = JS.throw e /\ protocolCache w' = protocolCache w)
  /\ (forall created, auth0 env = JS.normal tt ->
        server env request = JS.normal created ->
        protocol_id created = None ->
        c = JS.throw (JS.Error without_id)
        /\ protocolCache w' = protocolCache w).
Proof.
  cbv zeta. split; [|split; [|split]].
  - by destruct (protocolUpsert_outcome env protocol w) as (c & w' & -> & _).
  - by destruct (protocolUpsert_outcome env protocol w) as (c & w' & -> & _).
  - intros e Hauth Hserver.
    by rewrite (protocolUpsert_rejected env protocol w e).
  - intros created Hauth Hserver Hid.
    rewrite (protocolUpsert_without_id env protocol w created); [done..|].
    by rewrite Hid.
Qed.

Lemma protocolUpsert_cleanup_witness :
  let unsaved :=
    {| protocol_id := None; protocol_name := Some "PCR";
       protocol_description := Some ""; protocol_blocks := Some [] |} in
  let env :=
    {| auth0 := JS.normal tt; server := fun r => JS.normal (request_body r);
       moment_format := "2020-06-01T12:00:00+00:00" |} in
  let w := {| page := initialState; protocolCache := ∅; requests := [] |} in
  fst (protocolUpsert env unsaved w) = JS.throw (JS.Error without_id)
  /\ protocolCache (snd (protocolUpsert env unsaved w)) = ∅
  /\ formSaving (page (snd (protocolUpsert env unsaved w))) = false
  /\ formSavedTime (page (snd (protocolUpsert env unsaved w)))
     = Some "2020-06-01T12:00:00+00:00".
Proof.
  intros unsaved env w.
  destruct (protocolUpsert_cleanup env unsaved w)
    as (Hsaving & Htime & _ & Hlacks).
  destruct (Hlacks unsaved) as [Hthrown Hcache];
    [reflexivity|reflexivity|reflexivity|].
  repeat split; assumption.
Defined.

Section Upsert.

Variable env : Env.
Variable w : World.

Lemma upsertMethod_create (protocol : Protocol) :
  JS.truthy JS.truthy_number (protocol_id protocol) = false ->
  upsertMethod protocol = "POST" /\ upsertPath protocol = "protocol".
Proof. unfold upsertMethod, upsertPath. by intros ->. Qed.

Lemma upsertMethod_update (protocol : Protocol) (k : Z) :
  protocol_id protocol = Some (JS.Int k) -> k ≠ 0 ->
  upsertMethod protocol = "PUT"
  /\ (JS.safe_integer k -> upsertPath protocol = "protocol/" +:+ pretty k).
Proof.
  unfold upsertMethod, upsertPath. intros -> Hk%Z.eqb_neq. simpl.
  by rewrite Hk.
Qed.

Lemma protocolUpsert_sends (protocol : Protocol) :
  auth0 env = JS.normal tt ->
  requests (snd (protocolUpsert env protocol w))
  = requests w
    ++ [{| request_method := upsertMethod protocol;
           request_path := upsertPath protocol;
           request_body := protocol |}].
Proof.
  intros Hauth. run_save. rewrite Hauth. cbn beta iota.
  destruct (server env _) as [created|e]; [|done]. cbn beta iota.
  destruct (protocol_id created) as [i|]; [|done].
  by destruct (JS.truthy_number i).
Qed.

End Upsert.

(** C5, as the code has it: a save sends one request whose record is the
    submitted protocol; it is a POST to ["protocol"] when the id is absent,
    [NaN] or [0], and a PUT when the id is another integer, to
    ["protocol/<id>"] with the id in decimal when that integer is a safe
    integer; when the server answers with a record whose id is an integer
    [k] other than [0], the save completes and the cache maps [k] to that
    record; and the record that the save button submits holds the
    serialization of the displayed description. *)
Theorem protocolUpsert_request (env : Env) (protocol : Protocol) (w : World) :
  auth0 env = JS.normal tt ->
  let c := fst (protocolUpsert env protocol w) in
  let w' := snd (protocolUpsert env protocol w) in
  (exists request,
     requests w' = requests w ++ [request]
     /\ request_body request = protocol
     /\ (JS.truthy JS.truthy_number (protocol_id protocol) = false ->
         request_method request = "POST" /\ request_path request = "protocol")
     /\ (forall k, protocol_id protocol = Some (JS.Int k) -> k ≠ 0 ->
         request_method request = "PUT"
         /\ (JS.safe_integer k ->
             request_path request = "protocol/" +:+ pretty k))
     /\ (forall created k,
           server env request = JS.normal created ->
           protocol_id created = Some (JS.Int k) -> k ≠ 0 ->
           c = JS.normal tt /\ protocolCache w' !! JS.Int k = Some created))
  /\ (forall routeId remote,
        saveClicked env routeId remote w
        = protocolUpsert env
            {| protocol_id := Some routeId;
               protocol_name := Some (currentName (page w) remote);
               protocol_description :=
                 Some (serializeSlate (currentDescription (page w) remote));
               protocol_blocks := Some (currentBlocks (page w) remote) |}
            w).
Proof.
  intros Hauth. cbv zeta. split; [|done].
  eexists. split; [by apply protocolUpsert_sends|].
  split; [done|]. split; [apply upsertMethod_create|].
  split; [apply upsertMethod_update|].
  intros created k Hserver Hid Hk%Z.eqb_neq. simpl in Hserver.
  rewrite (protocolUpsert_created env protocol w created (JS.Int k));
    [|done|done|done|by simpl; rewrite Hk].
  split; [done|]. simpl. apply lookup_insert_eq.
Qed.

Lemma protocolUpsert_request_witness :
  let block :=
    Some {| block_id := Some "0b9c"; block_type := text_question;
            block_fields := [] |} in
  let outgoing :=
    {| protocol_id := Some JS.NaN; protocol_name := Some "";
       protocol_description := Some ""; protocol_blocks := Some [block] |} in
  let saved :=
    {| protocol_id := Some (JS.Int 42); protocol_name := Some "";
       protocol_description := Some ""; protocol_blocks := Some [block] |} in
  let env :=
    {| auth0 := JS.normal tt; server := fun _ => JS.normal saved;
       moment_format := "2020-06-01T12:00:00+00:00" |} in
  let w :=
    {| page := addBlock initialState None "0b9c" text_question;
       protocolCache := ∅; requests := [] |} in
  requests (snd (saveClicked env JS.NaN None w))
  = [{| request_method := "POST"; request_path := "protocol";
        request_body := outgoing |}]
  /\ fst (saveClicked env JS.NaN None w) = JS.normal tt
  /\ protocolCache (snd (saveClicked env JS.NaN None w)) !! JS.Int 42
     = Some saved
  /\ requests (snd (protocolUpsert env saved w))
     = [{| request_method := "PUT"; request_path := "protocol/42";
           request_body := saved |}].
Proof.
  intros block outgoing saved env w.
  destruct (protocolUpsert_request env outgoing w eq_refl)
    as [(request & Hsent & Hbody & Hcreate & _ & Hcache) Hclick].
  destruct (Hcreate eq_refl) as [Hmethod Hpath].
  destruct (Hcache saved 42) as [Hdone Hlookup];
    [reflexivity|reflexivity|discriminate|].
  assert (saveClicked env JS.NaN None w = protocolUpsert env outgoing w)
    as -> by apply (Hclick JS.NaN None).
  split; [|split; [assumption|split; [assumption|]]].
  - rewrite Hsent. destruct request. simpl in *. by subst.
  - destruct (protocolUpsert_request env saved w eq_refl)
      as [(update & Hsent' & Hbody' & _ & Hupdate & _) _].
    destruct (Hupdate 42) as [Hput Hpath']; [reflexivity|discriminate|].
    rewrite Hsent'. destruct update. simpl in *.
    rewrite Hpath' by (unfold JS.safe_integer; lia). by subst.
Defined.

(** C5 fails as stated: a protocol whose id is [0] has an id, yet it is
    sent with the create verb to the collection path; and a server record
    that carries the id [0] is not cached: the save throws. *)
Lemma protocolUpsert_request_counterexample :
  let zero :=
    {| protocol_id := Some (JS.Int 0); protocol_name := Some "PCR";
       protocol_description := Some "Mix"; protocol_blocks := Some [] |} in
  let env :=
    {| auth0 := JS.normal tt; server := fun r => JS.normal (request_body r);
       moment_format := "2020-06-01T12:00:00+00:00" |} in
  let w := {| page := initialState; protocolCache := ∅; requests := [] |} in
  protocol_id zero = Some (JS.Int 0)
  /\ requests (snd (protocolUpsert env zero w))
     = [{| request_method := "POST"; request_path := "protocol";
           request_body := zero |}]
  /\ fst (protocolUpsert env zero w) = JS.throw (JS.Error without_id)
  /\ protocolCache (snd (protocolUpsert env zero w)) !! JS.Int 0 = None.
Proof. repeat split. Qed.

(** * Further properties of the page *)

(** ** The codec *)

Section CodecMore.

Let nl : string := String JS.newline EmptyString.

Lemma append_assoc (a b c : string) : (a +:+ b) +:+ c = a +:+ (b +:+ c).
Proof.
  induction a as [|x a IH]; [done|].
  change (String x ((a +:+ b) +:+ c) = String x (a +:+ (b +:+ c))).
  by rewrite IH.
Qed.

Lemma split_length (str : string) :
  length (JS.split str) = Datatypes.S (count_newlines str).
Proof.
  induction str as [|c rest IH]; [done|]. simpl.
  destruct (Ascii.eqb c JS.newline); simpl; [by rewrite IH|].
  destruct (split_cons rest) as (piece & pieces & Hsplit).
  rewrite Hsplit in IH |- *. done.
Qed.

Lemma split_lines (str : string) :
  Forall (fun line => has_newline line = false) (JS.split str).
Proof.
  induction str as [|c rest IH]; [by repeat constructor|]. simpl.
  destruct (Ascii.eqb c JS.newline) eqn:Hc; [by constructor|].
  destruct (split_cons rest) as (piece & pieces & Hsplit).
  rewrite Hsplit in IH |- *.
  apply Forall_cons in IH as [Hpiece Hpieces].
  constructor; [|done]. simpl. by rewrite Hc, Hpiece.
Qed.

(** X1: [deserializeSlate] never gives an empty document: it gives one
    paragraph more than the string has line breaks, and each of them holds
    exactly one leaf, whose text has no line break. *)
Theorem deserializeSlate_paragraphs (str : string) :
  length (deserializeSlate str) = Datatypes.S (count_newlines str)
  /\ Forall
       (fun n => exists line, n = Element [Text line]
                              /\ has_newline line = false)
       (deserializeSlate str).
Proof.
  unfold deserializeSlate. split.
  - by rewrite List.length_map, split_length.
  - apply Forall_forall. intros n (line & <- & Hline)%list_elem_of_In%List.in_map_iff.
    exists line. split; [done|].
    pose proof (split_lines str) as Hlines. rewrite Forall_forall in Hlines.
    by apply Hlines, list_elem_of_In.
Qed.

Lemma paragraph_strings_lines (d : list Node) :
  Forall (fun n => has_newline (Node_string n) = false) d ->
  Forall (fun line => has_newline line = false) (List.map Node_string d).
Proof.
  intros Hd. apply Forall_forall.
  intros line (n & <- & Hn%list_elem_of_In)%list_elem_of_In%List.in_map_iff.
  rewrite Forall_forall in Hd. by apply Hd.
Qed.

(** X2: apart from the cut of a paragraph into leaves, nothing is lost in
    the saved string: two documents with at least one node each, none of
    whose paragraphs holds a line break, serialize to the same string only
    if they have the same paragraph texts, one by one. *)
Theorem serializeSlate_paragraph_texts (d1 d2 : list Node) :
  d1 ≠ [] -> d2 ≠ [] ->
  Forall (fun n => has_newline (Node_string n) = false) d1 ->
  Forall (fun n => has_newline (Node_string n) = false) d2 ->
  serializeSlate d1 = serializeSlate d2 ->
  List.map Node_string d1 = List.map Node_string d2.
Proof.
  intros H1 H2 Hd1 Hd2 Hsame. unfold serializeSlate in Hsame.
  apply (f_equal JS.split) in Hsame.
  rewrite !split_join in Hsame;
    [done|by destruct d2|by apply paragraph_strings_lines
    |by destruct d1|by apply paragraph_strings_lines].
Qed.

Lemma serializeSlate_paragraph_texts_witness :
  let d1 := [Element [Text "Mix"; Text " well"]; Element [Text "Wait"]] in
  let d2 := [Element [Text "Mix well"]; Element [Text "Wa"; Text "it"]] in
  List.map Node_string d1 = List.map Node_string d2.
Proof.
  intros d1 d2.
  apply (serializeSlate_paragraph_texts d1 d2);
    [done|done|by repeat constructor|by repeat constructor|reflexivity].
Defined.

Lemma join_app (sep : string) (ps qs : list string) :
  ps ≠ [] -> qs ≠ [] ->
  JS.join sep (ps ++ qs) = JS.join sep ps +:+ sep +:+ JS.join sep qs.
Proof.
  induction ps as [|p ps IH]; [done|]. intros _ Hqs.
  destruct ps as [|p' ps].
  - destruct qs; done.
  - change (JS.join sep ((p :: p' :: ps) ++ qs))
      with (p +:+ sep +:+ JS.join sep ((p' :: ps) ++ qs)).
    rewrite IH by done.
    change (JS.join sep (p :: p' :: ps))
      with (p +:+ sep +:+ JS.join sep (p' :: ps)).
    by rewrite !append_assoc.
Qed.

(** X3: the serialization of two documents put one after the other, both
    with at least one node, is the two serializations with a line break
    between them. *)
Theorem serializeSlate_app (d1 d2 : list Node) :
  d1 ≠ [] -> d2 ≠ [] ->
  serializeSlate (d1 ++ d2)
  = serializeSlate d1 +:+ String JS.newline (serializeSlate d2).
Proof.
  intros H1 H2. unfold serializeSlate. rewrite List.map_app.
  rewrite join_app; [done|by destruct d1|by destruct d2].
Qed.

Lemma serializeSlate_app_witness :
  serializeSlate ([Element [Text "Mix"]] ++ [Element [Text "Wait"; Text "!"]])
  = "Mix" +:+ String JS.newline "Wait!".
Proof.
  rewrite (serializeSlate_app [Element [Text "Mix"]]
             [Element [Text "Wait"; Text "!"]]); [reflexivity|done|done].
Defined.

(** X4: a description that the user has not touched is saved as it was
    loaded: with a null description overlay, the displayed document
    serializes to the remote record's description, and to the empty string
    when there is none. *)
Theorem currentDescription_unedited (st : PageState)
    (protocol : option Protocol) :
  description st = None ->
  serializeSlate (currentDescription st protocol)
  = default "" (protocol ≫= protocol_description).
Proof.
  intros Hnone. unfold currentDescription. rewrite Hnone. simpl.
  destruct (protocol ≫= protocol_description) as [[|c s]|]; [done| |done].
  simpl JS.truthy_only. cbn [fmap option_fmap option_map JS.or JS.truthy_object].
  unfold serializeSlate. rewrite Node_string_deserialize. apply join_split.
Qed.

Lemma currentDescription_unedited_witness :
  let remote :=
    Some {| protocol_id := Some (JS.Int 7); protocol_name := Some "PCR";
            protocol_description := Some (String "a" (String JS.newline "b"));
            protocol_blocks := None |} in
  serializeSlate (currentDescription (setName "qPCR" initialState) remote)
  = String "a" (String JS.newline "b").
Proof.
  intros remote.
  apply (currentDescription_unedited (setName "qPCR" initialState) remote).
  reflexivity.
Defined.

End CodecMore.

(** ** Taking an element out of a list and putting it back *)

Section Reinsert.

Context {A : Type}.
Variable l : list A.
Variable i j : nat.
Variable a : A.
Hypothesis Hi : l !! i = Some a.
Hypothesis Hj : (j < length l)%nat.

Let rest : list A := delete i l.
Let moved : list A := take j rest ++ a :: drop j rest.

Lemma length_rest : length rest = pred (length l).
Proof. clear Hj. unfold rest. rewrite length_delete; [lia|]. by exists a. Qed.

Lemma length_take_rest : length (take j rest) = j.
Proof. rewrite length_take, length_rest. lia. Qed.

Lemma reinsert_lookup_at : moved !! j = Some a.
Proof. unfold moved. apply list_lookup_middle. by rewrite length_take_rest. Qed.

Lemma reinsert_lookup_before (k : nat) :
  (k < j)%nat -> moved !! k = rest !! k.
Proof.
  intros Hk. unfold moved.
  rewrite lookup_app_l by (rewrite length_take_rest; lia).
  by apply lookup_take_lt.
Qed.

Lemma reinsert_lookup_after (k : nat) :
  (j < k)%nat -> moved !! k = rest !! pred k.
Proof.
  intros Hk. unfold moved.
  rewrite lookup_app_r by (rewrite length_take_rest; lia).
  rewrite length_take_rest.
  destruct (k - j)%nat as [|t] eqn:Ht; [lia|]. simpl.
  rewrite lookup_drop. f_equal. lia.
Qed.

Lemma reinsert_lookup_outside (k : nat) :
  (k < i /\ k < j)%nat \/ (i < k /\ j < k)%nat -> moved !! k = l !! k.
Proof.
  intros [[Hki Hkj]|[Hki Hkj]].
  - rewrite reinsert_lookup_before by done. by apply list_lookup_delete_lt.
  - rewrite reinsert_lookup_after by done. unfold rest.
    rewrite list_lookup_delete_ge by lia. f_equal. lia.
Qed.

Lemma reinsert_lookup_down (k : nat) :
  (i <= k < j)%nat -> moved !! k = l !! Datatypes.S k.
Proof.
  intros [Hki Hkj]. rewrite reinsert_lookup_before by done.
  by apply list_lookup_delete_ge.
Qed.

Lemma reinsert_lookup_up (k : nat) :
  (j < k <= i)%nat -> moved !! k = l !! pred k.
Proof.
  intros [Hkj Hki]. rewrite reinsert_lookup_after by done.
  apply list_lookup_delete_lt. lia.
Qed.

Lemma reinsert_delete : delete j moved = rest.
Proof.
  unfold moved.
  pose proof (delete_middle (take j rest) (drop j rest) a) as Hdel.
  rewrite length_take_rest in Hdel. rewrite Hdel. apply take_drop.
Qed.

Lemma reinsert_self : take i rest ++ a :: drop i rest = l.
Proof.
  clear Hj. unfold rest. rewrite delete_take_drop.
  assert (length (take i l) = i) as Hlen.
  { rewrite length_take. apply lookup_lt_Some in Hi. lia. }
  rewrite take_app_length' by done. rewrite drop_app_length' by done.
  by apply take_drop_middle.
Qed.

Lemma reinsert_length : length moved = length l.
Proof.
  unfold moved. rewrite length_app, length_take_rest. simpl.
  rewrite length_drop, length_rest. lia.
Qed.

End Reinsert.

(** ** The ordered-block store, continued *)

Section BlocksMore.

Variable st : PageState.
Variable protocol : option Protocol.

Let bs : list (option BlockDefinition) := currentBlocks st protocol.

Lemma newBlocks_reinsert (dragIndex hoverIndex : Z) :
  0 <= dragIndex < Z.of_nat (length bs) ->
  0 <= hoverIndex < Z.of_nat (length bs) ->
  exists dragBlock,
    bs !! Z.to_nat dragIndex = Some dragBlock
    /\ newBlocks st protocol dragIndex hoverIndex
       = take (Z.to_nat hoverIndex) (delete (Z.to_nat dragIndex) bs)
         ++ dragBlock
            :: drop (Z.to_nat hoverIndex) (delete (Z.to_nat dragIndex) bs).
Proof.
  intros Hdrag Hhover.
  destruct (get_in_range bs dragIndex Hdrag) as (dragBlock & Hlookup & Hget).
  exists dragBlock. split; [done|].
  unfold newBlocks. fold bs. rewrite Hget. simpl.
  rewrite splice_remove by done. rewrite splice_add; [done|].
  rewrite length_delete by (by exists dragBlock). lia.
Qed.

Lemma currentBlocks_setBlocks (v : list (option BlockDefinition))
    (st' : PageState) :
  currentBlocks (setBlocks v st') protocol = v.
Proof. done. Qed.

(** X5: where every block is after a move inside the list: the moved block
    is at [hoverIndex]; the blocks before both indices and the blocks after
    both indices stay where they were; the blocks between the indices shift
    by one position towards [dragIndex]. *)
Theorem newBlocks_lookup (dragIndex hoverIndex : Z) (k : nat) :
  let d := Z.to_nat dragIndex in
  let h := Z.to_nat hoverIndex in
  let moved := newBlocks st protocol dragIndex hoverIndex in
  0 <= dragIndex < Z.of_nat (length bs) ->
  0 <= hoverIndex < Z.of_nat (length bs) ->
  (k = h -> moved !! k = bs !! d)
  /\ ((k < d /\ k < h)%nat \/ (d < k /\ h < k)%nat -> moved !! k = bs !! k)
  /\ ((d <= k < h)%nat -> moved !! k = bs !! Datatypes.S k)
  /\ ((h < k <= d)%nat -> moved !! k = bs !! pred k).
Proof.
  intros d h moved Hdrag Hhover. subst moved.
  destruct (newBlocks_reinsert dragIndex hoverIndex Hdrag Hhover)
    as (dragBlock & Hlookup & ->).
  fold d h in Hlookup |- *.
  assert (h < length bs)%nat as Hh by (subst h; lia).
  split; [|split; [|split]].
  - intros ->. rewrite Hlookup. by apply reinsert_lookup_at.
  - by apply reinsert_lookup_outside.
  - by apply reinsert_lookup_down.
  - by apply reinsert_lookup_up.
Qed.

(** X6: moving a block from [dragIndex] to [hoverIndex] and then back from
    [hoverIndex] to [dragIndex] displays the list that was displayed before
    the two moves. *)
Theorem moveBlock_back (dragIndex hoverIndex : Z) :
  0 <= dragIndex < Z.of_nat (length bs) ->
  0 <= hoverIndex < Z.of_nat (length bs) ->
  currentBlocks
    (moveBlock protocol hoverIndex dragIndex
       (moveBlock protocol dragIndex hoverIndex st))
    protocol
  = bs.
Proof.
  intros Hdrag Hhover.
  destruct (newBlocks_reinsert dragIndex hoverIndex Hdrag Hhover)
    as (dragBlock & Hlookup & Hmoved).
  assert (Z.to_nat hoverIndex < length bs)%nat as Hh by lia.
  assert (Z.to_nat dragIndex < length bs)%nat as Hd by lia.
  unfold moveBlock at 1. rewrite currentBlocks_setBlocks.
  unfold newBlocks. unfold moveBlock. rewrite currentBlocks_setBlocks.
  fold bs. rewrite Hmoved.
  set (moved := take _ _ ++ _ :: drop _ _).
  assert (length moved = length bs) as Hlen
    by (by apply reinsert_length).
  assert (moved !! Z.to_nat hoverIndex = Some dragBlock) as Hat
    by (by apply reinsert_lookup_at).
  unfold JS.get. rewrite decide_True by lia. rewrite Hat. simpl.
  rewrite splice_remove by lia. rewrite splice_add.
  - unfold moved. rewrite reinsert_delete by done. by apply reinsert_self.
  - rewrite length_delete by (by exists dragBlock). lia.
Qed.

End BlocksMore.

Lemma newBlocks_lookup_witness :
  let blk token :=
    Some {| block_id := Some token; block_type := text_question;
            block_fields := [] |} in
  let st := setBlocks [blk "a"; blk "b"; blk "c"; blk "d"] initialState in
  newBlocks st None 3 1 !! 2%nat = Some (blk "b")
  /\ newBlocks st None 3 1 !! 1%nat = Some (blk "d")
  /\ newBlocks st None 3 1 !! 0%nat = Some (blk "a").
Proof.
  intros blk st.
  destruct (newBlocks_lookup st None 3 1 2) as (_ & _ & _ & Hup);
    [simpl; lia|simpl; lia|].
  destruct (newBlocks_lookup st None 3 1 1) as (Hat & _);
    [simpl; lia|simpl; lia|].
  destruct (newBlocks_lookup st None 3 1 0) as (_ & Hout & _);
    [simpl; lia|simpl; lia|].
  split; [|split].
  - rewrite Hup; [reflexivity|simpl; lia].
  - rewrite Hat; reflexivity.
  - rewrite Hout; [reflexivity|simpl; lia].
Defined.

Lemma moveBlock_back_witness :
  let blk token :=
    Some {| block_id := Some token; block_type := text_question;
            block_fields := [] |} in
  let st := setBlocks [blk "a"; blk "b"; blk "c"; blk "d"] initialState in
  currentBlocks (moveBlock None 2 0 (moveBlock None 0 2 st)) None
  = [blk "a"; blk "b"; blk "c"; blk "d"].
Proof.
  intros blk st. apply (moveBlock_back st None 0 2); simpl; lia.
Defined.

Section UpdateMore.

Variable st : PageState.
Variable protocol : option Protocol.

Let replaced (block b : BlockDefinition) : BlockDefinition :=
  if decide (block_id b = block_id block) then block else b.

Lemma slots_defined_or_not (slots : list (option BlockDefinition)) :
  (exists ds, slots = Some <$> ds) \/ None ∈ slots.
Proof.
  induction slots as [|[b|] slots [[ds ->]|Hnone]].
  - left. by exists [].
  - left. by exists (b :: ds).
  - right. by right.
  - right. by left.
  - right. by left.
Qed.

Lemma updatedBlocks_undefined (block : BlockDefinition) :
  None ∈ currentBlocks st protocol ->
  updatedBlocks st protocol block = JS.throw JS.TypeError.
Proof.
  unfold updatedBlocks.
  induction (currentBlocks st protocol) as [|[b|] slots IH]; intros Hnone.
  - by apply elem_of_nil in Hnone.
  - apply elem_of_cons in Hnone as [Hnone|Hnone]; [done|].
    simpl. by rewrite IH.
  - done.
Qed.

Lemma updateBlock_normal_inv (block : BlockDefinition) (st' : PageState) :
  updateBlock st protocol (Some block) = JS.normal st' ->
  exists ds,
    currentBlocks st protocol = Some <$> ds
    /\ st' = setBlocks (Some <$> (replaced block <$> ds)) st.
Proof.
  unfold updateBlock.
  destruct (slots_defined_or_not (currentBlocks st protocol))
    as [[ds Hds]|Hnone].
  - rewrite (updatedBlocks_defined st protocol ds block Hds).
    intros [= <-]. by exists ds.
  - by rewrite updatedBlocks_undefined.
Qed.

Lemma replaced_token (block b : BlockDefinition) :
  block_id (replaced block b) = block_id b.
Proof. unfold replaced. by case_decide. Qed.

Lemma replaced_twice (block b : BlockDefinition) :
  replaced block (replaced block b) = replaced block b.
Proof.
  unfold replaced. destruct (decide (block_id b = block_id block)) as [Heq|Hne].
  - by rewrite decide_True.
  - by rewrite decide_False.
Qed.

Lemma replaced_fmap_twice (block : BlockDefinition)
    (ds : list BlockDefinition) :
  replaced block <$> (replaced block <$> ds) = replaced block <$> ds.
Proof.
  rewrite <-list_fmap_compose. apply list_fmap_ext.
  intros i b _. apply replaced_twice.
Qed.

Lemma tokens_replaced (block : BlockDefinition) (ds : list BlockDefinition) :
  slot_token <$> (Some <$> (replaced block <$> ds))
  = slot_token <$> (Some <$> ds).
Proof.
  rewrite <-!list_fmap_compose. apply list_fmap_ext.
  intros i b _. simpl. apply replaced_token.
Qed.

(** X7: [updateBlock] throws a [TypeError] exactly when a displayed slot is
    undefined; with every slot defined it completes, and with no block to
    update it leaves the hooks as they are. *)
Theorem updateBlock_throws (block : BlockDefinition) :
  (None ∈ currentBlocks st protocol ->
   updateBlock st protocol (Some block) = JS.throw JS.TypeError)
  /\ (None ∉ currentBlocks st protocol ->
      exists st', updateBlock st protocol (Some block) = JS.normal st')
  /\ updateBlock st protocol None = JS.normal st.
Proof.
  split; [|split; [|done]].
  - intros Hnone. unfold updateBlock. by rewrite updatedBlocks_undefined.
  - intros Hdefined.
    destruct (slots_defined_or_not (currentBlocks st protocol))
      as [[ds Hds]|Hnone]; [|done].
    eexists. unfold updateBlock.
    by rewrite (updatedBlocks_defined st protocol ds block Hds).
Qed.

(** X8: an update changes no identity token: after [updateBlock] the
    displayed list has the same tokens in the same order (so the same
    length); the name, the description and the save state are untouched,
    and the block overlay is set. *)
Theorem updateBlock_tokens (block : BlockDefinition) (st' : PageState) :
  updateBlock st protocol (Some block) = JS.normal st' ->
  slot_token <$> currentBlocks st' protocol
  = slot_token <$> currentBlocks st protocol
  /\ length (currentBlocks st' protocol) = length (currentBlocks st protocol)
  /\ blocks st' = Some (currentBlocks st' protocol)
  /\ name st' = name st /\ description st' = description st
  /\ formSaving st' = formSaving st /\ formSavedTime st' = formSavedTime st.
Proof.
  intros (ds & Hds & ->)%updateBlock_normal_inv.
  rewrite currentBlocks_setBlocks, Hds.
  split; [apply tokens_replaced|]. split; [|done].
  by rewrite !length_fmap.
Qed.

(** X9: updating with the same block twice is the same as updating once. *)
Theorem updateBlock_idempotent (block : BlockDefinition) (st' : PageState) :
  updateBlock st protocol (Some block) = JS.normal st' ->
  updateBlock st' protocol (Some block) = JS.normal st'.
Proof.
  intros (ds & Hds & ->)%updateBlock_normal_inv.
  unfold updateBlock.
  rewrite (updatedBlocks_defined _ protocol (replaced block <$> ds) block)
    by apply currentBlocks_setBlocks.
  pose proof (replaced_fmap_twice block ds) as Htwice.
  unfold replaced in Htwice |- *. by rewrite Htwice.
Qed.

(** X10: a block that was just added is the one an update with its token
    changes: after [addBlock] with a token that no displayed block has, an
    [updateBlock] with a block of that token displays the earlier list
    followed by the updated block. *)
Theorem addBlock_updateBlock (ds : list BlockDefinition) (token : string)
    (type : BlockType) (edited : BlockDefinition) :
  currentBlocks st protocol = Some <$> ds ->
  (forall b, b ∈ ds -> block_id b ≠ Some token) ->
  block_id edited = Some token ->
  updateBlock (addBlock st protocol token type) protocol (Some edited)
  = JS.normal
      (setBlocks (currentBlocks st protocol ++ [Some edited])
         (addBlock st protocol token type)).
Proof.
  intros Hds Hfresh Hedited. unfold updateBlock.
  set (added := {| block_id := Some token; block_type := type;
                   block_fields := [] |}).
  rewrite (updatedBlocks_defined _ protocol (ds ++ [added]) edited).
  - rewrite fmap_app. rewrite replaced_no_match.
    + simpl. rewrite decide_True by (by rewrite Hedited).
      by rewrite Hds, fmap_app.
    + intros b Hb. rewrite Hedited. by apply Hfresh.
  - unfold addBlock. rewrite currentBlocks_setBlocks, Hds. by rewrite fmap_app.
Qed.

End UpdateMore.

Lemma updateBlock_tokens_witness :
  let a := {| block_id := Some "a"; block_type := text_question;
              block_fields := [] |} in
  let a' := {| block_id := Some "a"; block_type := text_question;
               block_fields := [("name", "pH")] |} in
  let st := setBlocks [Some a] initialState in
  slot_token <$> currentBlocks (setBlocks [Some a'] st) None = [Some "a"].
Proof.
  intros a a' st.
  destruct (updateBlock_tokens st None a' (setBlocks [Some a'] st) eq_refl)
    as [Htokens _].
  exact Htokens.
Defined.

Lemma updateBlock_idempotent_witness :
  let a := {| block_id := Some "a"; block_type := text_question;
              block_fields := [] |} in
  let a' := {| block_id := Some "a"; block_type := text_question;
               block_fields := [("name", "pH")] |} in
  let st := setBlocks [Some a] initialState in
  updateBlock (setBlocks [Some a'] st) None (Some a')
  = JS.normal (setBlocks [Some a'] st).
Proof.
  intros a a' st.
  exact (updateBlock_idempotent st None a' (setBlocks [Some a'] st) eq_refl).
Defined.

Lemma addBlock_updateBlock_witness :
  let a := {| block_id := Some "a"; block_type := text_question;
              block_fields := [] |} in
  let edited := {| block_id := Some "b"; block_type := plate_sampler;
                   block_fields := [("plateCount", "4")] |} in
  let st := setBlocks [Some a] initialState in
  updateBlock (addBlock st None "b" plate_sampler) None (Some edited)
  = JS.normal
      (setBlocks [Some a; Some edited] (addBlock st None "b" plate_sampler)).
Proof.
  intros a edited st.
  apply (addBlock_updateBlock st None [a] "b" plate_sampler edited);
    [reflexivity| |reflexivity].
  intros b ->%list_elem_of_singleton. discriminate.
Defined.

Lemma updateBlock_throws_witness :
  let a := {| block_id := Some "a"; block_type := text_question;
              block_fields := [] |} in
  updateBlock (setBlocks [Some a; None] initialState) None (Some a)
  = JS.throw JS.TypeError.
Proof.
  intros a.
  destruct (updateBlock_throws (setBlocks [Some a; None] initialState) None a)
    as [Hthrows _].
  apply Hthrows. right. left.
Defined.

(** ** The invariant of the block list *)

Section WellFormed.

Variable st : PageState.
Variable protocol : option Protocol.

Lemma well_formed_Permutation (l k : list (option BlockDefinition)) :
  l ≡ₚ k -> well_formed k -> well_formed l.
Proof.
  intros Hperm [Hdefined Hunique]. split.
  - by rewrite Hperm.
  - by rewrite Hperm.
Qed.

(** X11: a displayed list in which every slot holds a block and no token
    occurs twice stays so under the three operations of the page: adding a
    block with a token that is not displayed, updating a block, and moving
    a block between two positions of the list. *)
Theorem well_formed_preserved :
  well_formed (currentBlocks st protocol) ->
  (forall token type,
     Some token ∉ slot_token <$> currentBlocks st protocol ->
     well_formed (currentBlocks (addBlock st protocol token type) protocol))
  /\ (forall block st',
        updateBlock st protocol (Some block) = JS.normal st' ->
        well_formed (currentBlocks st' protocol))
  /\ (forall dragIndex hoverIndex,
        0 <= dragIndex < Z.of_nat (length (currentBlocks st protocol)) ->
        0 <= hoverIndex < Z.of_nat (length (currentBlocks st protocol)) ->
        well_formed
          (currentBlocks (moveBlock protocol dragIndex hoverIndex st) protocol)).
Proof.
  intros [Hdefined Hunique]. split; [|split].
  - intros token type Hfresh. unfold addBlock.
    rewrite currentBlocks_setBlocks. split.
    + apply Forall_app. split; [done|]. by repeat constructor.
    + rewrite fmap_app. apply NoDup_app. split; [done|].
      split; [|apply NoDup_singleton].
      intros x Hx ->%list_elem_of_singleton. by apply Hfresh.
  - intros block st' Hupdate.
    destruct (updateBlock_normal_inv st protocol block st' Hupdate)
      as (ds & Hds & ->).
    rewrite currentBlocks_setBlocks. split.
    + apply Forall_fmap, Forall_true. by eexists.
    + rewrite tokens_replaced. by rewrite <-Hds.
  - intros dragIndex hoverIndex Hdrag Hhover. unfold moveBlock.
    rewrite currentBlocks_setBlocks.
    destruct (newBlocks_reinsert st protocol dragIndex hoverIndex Hdrag Hhover)
      as (dragBlock & Hlookup & ->).
    eapply well_formed_Permutation; [by apply reinsert_Permutation|done].
Qed.

(** X12: [moveBlock] does not check its indices: with a [dragIndex] at or
    past the end of the list nothing is removed and an undefined slot is put
    in at [hoverIndex], so the list grows by one, and every later
    [updateBlock] throws. *)
Theorem moveBlock_past_end (dragIndex hoverIndex : Z)
    (block : BlockDefinition) :
  let bs := currentBlocks st protocol in
  Z.of_nat (length bs) <= dragIndex ->
  0 <= hoverIndex ->
  newBlocks st protocol dragIndex hoverIndex
  = take (Z.to_nat hoverIndex) bs ++ None :: drop (Z.to_nat hoverIndex) bs
  /\ length (newBlocks st protocol dragIndex hoverIndex)
     = Datatypes.S (length bs)
  /\ updateBlock (moveBlock protocol dragIndex hoverIndex st) protocol
       (Some block)
     = JS.throw JS.TypeError.
Proof.
  intros bs Hdrag Hhover.
  assert (newBlocks st protocol dragIndex hoverIndex
          = take (Z.to_nat hoverIndex) bs
            ++ None :: drop (Z.to_nat hoverIndex) bs) as Hnew.
  { unfold newBlocks, JS.get. fold bs. rewrite decide_True by lia.
    rewrite lookup_ge_None_2 by lia. simpl.
    assert (JS.splice bs dragIndex 1 [] = bs) as ->.
    { unfold JS.splice. cbv zeta. rewrite decide_False by lia.
      replace (Z.min dragIndex (Z.of_nat (length bs)))
        with (Z.of_nat (length bs)) by lia.
      replace (Z.min (Z.max 1 0) (Z.of_nat (length bs) - Z.of_nat (length bs)))
        with 0 by lia.
      rewrite Z.add_0_r, Nat2Z.id. simpl. apply take_drop. }
    unfold JS.splice. cbv zeta. rewrite decide_False by lia.
    replace (Z.min (Z.max 0 0)
               (Z.of_nat (length bs) - Z.min hoverIndex (Z.of_nat (length bs))))
      with 0 by lia.
    rewrite Z.add_0_r.
    destruct (decide (hoverIndex <= Z.of_nat (length bs))) as [Hle|Hgt].
    - by replace (Z.min hoverIndex (Z.of_nat (length bs))) with hoverIndex
        by lia.
    - replace (Z.min hoverIndex (Z.of_nat (length bs)))
        with (Z.of_nat (length bs)) by lia.
      rewrite Nat2Z.id. by rewrite !take_ge, !drop_ge by lia. }
  split; [done|]. split.
  - rewrite Hnew, length_app. simpl. rewrite length_take, length_drop. lia.
  - unfold updateBlock. rewrite updatedBlocks_undefined; [done|].
    unfold moveBlock. rewrite currentBlocks_setBlocks, Hnew.
    apply elem_of_app. right. by left.
Qed.

End WellFormed.

Lemma well_formed_preserved_witness :
  let blk token :=
    Some {| block_id := Some token; block_type := text_question;
            block_fields := [] |} in
  let st := setBlocks [blk "a"; blk "b"; blk "c"] initialState in
  well_formed (currentBlocks st None)
  /\ well_formed (currentBlocks (moveBlock None 2 0 st) None)
  /\ well_formed (currentBlocks (addBlock st None "d" plate_sampler) None).
Proof.
  intros blk st.
  assert (well_formed (currentBlocks st None)) as Hst.
  { split; [by repeat constructor; eexists|].
    apply (bool_decide_unpack _). vm_compute. exact I. }
  destruct (well_formed_preserved st None Hst) as (Hadd & _ & Hmove).
  split; [exact Hst|]. split.
  - apply Hmove; simpl; lia.
  - apply Hadd. apply (bool_decide_unpack _). vm_compute. exact I.
Defined.

Lemma moveBlock_past_end_witness :
  let blk token :=
    Some {| block_id := Some token; block_type := text_question;
            block_fields := [] |} in
  let st := setBlocks [blk "a"; blk "b"] initialState in
  newBlocks st None 5 1 = [blk "a"; None; blk "b"].
Proof.
  intros blk st.
  destruct (moveBlock_past_end st None 5 1
              {| block_id := None; block_type := text_question;
                 block_fields := [] |}) as [Hnew _]; [simpl; lia|lia|].
  exact Hnew.
Defined.

(** ** The list of block editors *)

Section Rendered.

Variable st : PageState.
Variable protocol : option Protocol.

Let bs : list (option BlockDefinition) := currentBlocks st protocol.

Lemma renderedBlocks_lookup (i : nat) (c : Draggable.t) :
  renderedBlocks st protocol !! i = Some (Some c) ->
  Draggable.index c = Z.of_nat i
  /\ bs !! i = Some (Some (Draggable.block c))
  /\ block_id (Draggable.block c) = Some (Draggable.key c)
  /\ JS.truthy_string (Draggable.key c) = true.
Proof.
  unfold renderedBlocks. fold bs. rewrite list_lookup_imap.
  destruct (bs !! i) as [[b|]|]; simpl; [|done..].
  destruct (block_id b) as [token|] eqn:Htoken; [|done].
  destruct (JS.truthy_string token) eqn:Htruthy; [|done].
  intros [= <-]. simpl. by rewrite Htoken.
Qed.

(** X13: the render mounts one entry per slot; a mounted block editor
    carries the position of its slot, which lies inside the list, the block
    of that slot, and that block's non-empty token as its key; and in a
    list with no token twice, no two mounted editors have the same key. *)
Theorem renderedBlocks_mounted :
  length (renderedBlocks st protocol) = length bs
  /\ (forall i c,
        renderedBlocks st protocol !! i = Some (Some c) ->
        Draggable.index c = Z.of_nat i
        /\ 0 <= Draggable.index c < Z.of_nat (length bs)
        /\ bs !! i = Some (Some (Draggable.block c))
        /\ block_id (Draggable.block c) = Some (Draggable.key c)
        /\ Draggable.key c ≠ "")
  /\ (NoDup (slot_token <$> bs) ->
      forall i j c c',
        renderedBlocks st protocol !! i = Some (Some c) ->
        renderedBlocks st protocol !! j = Some (Some c') ->
        Draggable.key c = Draggable.key c' -> i = j).
Proof.
  split; [apply length_imap|]. split.
  - intros i c Hc.
    destruct (renderedBlocks_lookup i c Hc) as (Hindex & Hslot & Htoken & Hkey).
    split; [done|]. split; [|split; [done|split; [done|]]].
    + apply lookup_lt_Some in Hslot. lia.
    + by destruct (Draggable.key c).
  - intros Hunique i j c c' Hc Hc' Hkeys.
    destruct (renderedBlocks_lookup i c Hc) as (_ & Hslot & Htoken & _).
    destruct (renderedBlocks_lookup j c' Hc') as (_ & Hslot' & Htoken' & _).
    apply (NoDup_lookup _ i j (Some (Draggable.key c)) Hunique).
    + rewrite list_lookup_fmap, Hslot. simpl. by rewrite Htoken.
    + rewrite list_lookup_fmap, Hslot'. simpl. by rewrite Htoken', Hkeys.
Qed.

End Rendered.

Lemma renderedBlocks_mounted_witness :
  let blk token :=
    {| block_id := Some token; block_type := text_question;
       block_fields := [] |} in
  let st := setBlocks [Some (blk "a"); None; Some (blk ""); Some (blk "b")]
              initialState in
  renderedBlocks st None
  = [Some {| Draggable.key := "a"; Draggable.index := 0;
             Draggable.block := blk "a" |};
     None; None;
     Some {| Draggable.key := "b"; Draggable.index := 3;
             Draggable.block := blk "b" |}]
  /\ forall i j c c',
       renderedBlocks st None !! i = Some (Some c) ->
       renderedBlocks st None !! j = Some (Some c') ->
       Draggable.key c = Draggable.key c' -> i = j.
Proof.
  intros blk st. split; [reflexivity|].
  destruct (renderedBlocks_mounted st None) as (_ & _ & Hkeys).
  apply Hkeys. apply (bool_decide_unpack _). vm_compute. exact I.
Defined.

(** ** Drag gestures *)

(** X14: the guards of the hover handler come before it reads the pointer:
    while the element is not mounted, and over the dragged item's own slot,
    an event changes nothing and does not throw, whatever the pointer
    offset; over another mounted slot, a missing pointer offset makes the
    handler throw a [TypeError] before anything is moved. *)
Theorem hover_guards {S : Type} (index : Z) (moveBlock : Z -> Z -> S -> S)
    (ref_current : option DOMRect.t) (clientOffset : option XYCoord.t)
    (item : DragItem.t) (s : S) :
  (ref_current = None \/ DragItem.index item = index ->
   hover index moveBlock ref_current clientOffset (item, s)
   = (JS.normal tt, (item, s)))
  /\ (is_Some ref_current -> DragItem.index item ≠ index ->
      clientOffset = None ->
      hover index moveBlock ref_current clientOffset (item, s)
      = (JS.throw JS.TypeError, (item, s))).
Proof.
  unfold hover. split.
  - intros [-> | Hown]; [done|].
    destruct ref_current; [|done]. by rewrite decide_True.
  - intros [rect ->] Hother ->. by rewrite decide_False.
Qed.

Lemma hover_guards_witness :
  hover 2 countMove (Some {| DOMRect.top := 0; DOMRect.bottom := 40 |}) None
    ({| DragItem.index := 2 |}, 0%nat)
  = (JS.normal tt, ({| DragItem.index := 2 |}, 0%nat))
  /\ hover 2 countMove (Some {| DOMRect.top := 0; DOMRect.bottom := 40 |}) None
       ({| DragItem.index := 1 |}, 0%nat)
     = (JS.throw JS.TypeError, ({| DragItem.index := 1 |}, 0%nat)).
Proof.
  split.
  - apply hover_guards. by right.
  - apply hover_guards; [by eexists|discriminate|reflexivity].
Defined.

Section Gesture.

Variable protocol : option Protocol.

(** What a gesture keeps: the displayed blocks are permuted, the dragged
    item's index stays inside the list and still points at the block it
    pointed at, and only the block overlay changes. *)
Let tracks (s s' : DragItem.t * PageState) : Prop :=
  currentBlocks (snd s') protocol ≡ₚ currentBlocks (snd s) protocol
  /\ 0 <= DragItem.index (fst s')
     < Z.of_nat (length (currentBlocks (snd s) protocol))
  /\ currentBlocks (snd s') protocol !! Z.to_nat (DragItem.index (fst s'))
     = currentBlocks (snd s) protocol !! Z.to_nat (DragItem.index (fst s))
  /\ name (snd s') = name (snd s)
  /\ description (snd s') = description (snd s)
  /\ formSaving (snd s') = formSaving (snd s)
  /\ formSavedTime (snd s') = formSavedTime (snd s).

Lemma hover_tracks (e : HoverEvent) (s : DragItem.t * PageState) :
  0 <= DragItem.index (fst s)
  < Z.of_nat (length (currentBlocks (snd s) protocol)) ->
  0 <= hovered e < Z.of_nat (length (currentBlocks (snd s) protocol)) ->
  tracks s
    (snd (hover (hovered e) (moveBlock protocol) (hovered_rect e)
            (pointer e) s)).
Proof.
  destruct s as [item st]. intros Hitem Hhovered.
  cbn [fst snd] in Hitem, Hhovered.
  destruct (hover_cases (hovered e) (moveBlock protocol) (hovered_rect e)
              (pointer e) item st) as [-> | ->].
  - unfold tracks. cbn [fst snd]. repeat split; (reflexivity || lia).
  - destruct (newBlocks_reinsert st protocol (DragItem.index item) (hovered e)
                Hitem Hhovered) as (dragBlock & Hlookup & Hmoved).
    unfold tracks, moveBlock. simpl fst. simpl snd.
    rewrite currentBlocks_setBlocks, Hmoved.
    split; [by apply reinsert_Permutation|]. split; [done|].
    split; [|done].
    rewrite Hlookup. apply reinsert_lookup_at; [done|lia].
Qed.

Lemma gesture_tracks (events : list HoverEvent) (s : DragItem.t * PageState) :
  0 <= DragItem.index (fst s)
  < Z.of_nat (length (currentBlocks (snd s) protocol)) ->
  Forall
    (fun e =>
       0 <= hovered e < Z.of_nat (length (currentBlocks (snd s) protocol)))
    events ->
  tracks s (gesture protocol events s).
Proof.
  revert s. induction events as [|e events IH]; intros s Hitem Hevents.
  - unfold tracks. simpl. repeat split; (reflexivity || lia).
  - apply Forall_cons in Hevents as [He Hevents]. simpl.
    destruct (hover_tracks e s Hitem He)
      as (Hperm & Hrange & Hdragged & Hname & Hdescription & Hsaving & Htime).
    set (s1 := snd (hover _ _ _ _ s)) in *.
    assert (length (currentBlocks (snd s1) protocol)
            = length (currentBlocks (snd s) protocol)) as Hlen
      by (by rewrite Hperm).
    destruct (IH s1) as (Hperm' & Hrange' & Hdragged' & Hname' & Hdescription'
                          & Hsaving' & Htime').
    { by rewrite Hlen. }
    { by rewrite Hlen. }
    unfold tracks. rewrite Hlen in Hrange'.
    split; [by rewrite Hperm'|]. split; [done|].
    split; [by rewrite Hdragged'|].
    by rewrite Hname', Hdescription', Hsaving', Htime'.
Qed.

(** X15: a drag gesture only reorders.  Started on a position of the
    displayed list and hovering over positions of that list, any number of
    hover events leaves a permutation of the displayed blocks; the dragged
    item's recorded index stays inside the list and points at the block
    that was picked up; the name, the description and the save state are
    untouched. *)
Theorem gesture_reorders (events : list HoverEvent) (item : DragItem.t)
    (st : PageState) :
  let bs := currentBlocks st protocol in
  let item' := fst (gesture protocol events (item, st)) in
  let st' := snd (gesture protocol events (item, st)) in
  0 <= DragItem.index item < Z.of_nat (length bs) ->
  Forall (fun e => 0 <= hovered e < Z.of_nat (length bs)) events ->
  currentBlocks st' protocol ≡ₚ bs
  /\ 0 <= DragItem.index item' < Z.of_nat (length bs)
  /\ currentBlocks st' protocol !! Z.to_nat (DragItem.index item')
     = bs !! Z.to_nat (DragItem.index item)
  /\ name st' = name st /\ description st' = description st
  /\ formSaving st' = formSaving st /\ formSavedTime st' = formSavedTime st.
Proof.
  intros bs item' st' Hitem Hevents.
  exact (gesture_tracks events (item, st) Hitem Hevents).
Qed.

End Gesture.

Lemma gesture_reorders_witness :
  let blk token :=
    Some {| block_id := Some token; block_type := text_question;
            block_fields := [] |} in
  let st := setBlocks [blk "a"; blk "b"; blk "c"] initialState in
  let rect := Some {| DOMRect.top := 100; DOMRect.bottom := 200 |} in
  let low := Some {| XYCoord.x := 12; XYCoord.y := 180 |} in
  let events :=
    [{| hovered := 1; hovered_rect := rect; pointer := low |};
     {| hovered := 2; hovered_rect := rect; pointer := low |}] in
  let final := gesture None events ({| DragItem.index := 0 |}, st) in
  currentBlocks (snd final) None = [blk "b"; blk "c"; blk "a"]
  /\ currentBlocks (snd final) None ≡ₚ [blk "a"; blk "b"; blk "c"]
  /\ currentBlocks (snd final) None !! Z.to_nat (DragItem.index (fst final))
     = Some (blk "a").
Proof.
  intros blk st rect low events final.
  destruct (gesture_reorders None events {| DragItem.index := 0 |} st)
    as (Hperm & _ & Hdragged & _).
  - simpl. lia.
  - repeat constructor; simpl; lia.
  - split; [|split].
    + vm_compute. reflexivity.
    + exact Hperm.
    + exact Hdragged.
Defined.

(** ** Saving, continued *)

Section SavingMore.

Variable env : Env.

Lemma displayed_ext (st st' : PageState) (remote : option Protocol) :
  name st' = name st -> description st' = description st ->
  blocks st' = blocks st ->
  currentName st' remote = currentName st remote
  /\ currentDescription st' remote = currentDescription st remote
  /\ currentBlocks st' remote = currentBlocks st remote.
Proof.
  unfold currentName, currentDescription, currentBlocks. by intros -> -> ->.
Qed.

Lemma protocolUpsert_page (protocol : Protocol) (w : World) :
  name (page (snd (protocolUpsert env protocol w))) = name (page w)
  /\ description (page (snd (protocolUpsert env protocol w)))
     = description (page w)
  /\ blocks (page (snd (protocolUpsert env protocol w))) = blocks (page w).
Proof.
  destruct (protocolUpsert_outcome env protocol w) as (c & w' & -> & Hpage & _).
  simpl. by rewrite Hpage.
Qed.

(** X16: a save never touches what the user has typed: whatever its
    outcome, the name, description and block overlays are the ones the page
    had before.  So a field that the user has edited (a name that is not
    empty, a description or block overlay that is set) displays after the
    save what it displayed before, whatever remote record the cache
    supplies before and after. *)
Theorem protocolUpsert_keeps_edits (protocol : Protocol) (w : World)
    (remote remote' : option Protocol) :
  let w' := snd (protocolUpsert env protocol w) in
  name (page w') = name (page w)
  /\ description (page w') = description (page w)
  /\ blocks (page w') = blocks (page w)
  /\ (JS.truthy JS.truthy_string (name (page w)) = true ->
      currentName (page w') remote' = currentName (page w) remote)
  /\ (is_Some (description (page w)) ->
      currentDescription (page w') remote'
      = currentDescription (page w) remote)
  /\ (is_Some (blocks (page w)) ->
      currentBlocks (page w') remote' = currentBlocks (page w) remote).
Proof.
  cbv zeta.
  destruct (protocolUpsert_page protocol w) as (Hname & Hdescription & Hblocks).
  split; [done|]. split; [done|]. split; [done|].
  split; [|split].
  - unfold currentName. rewrite Hname.
    destruct (name (page w)) as [s|]; [|done]. simpl. by intros ->.
  - unfold currentDescription. rewrite Hdescription. by intros [d ->].
  - unfold currentBlocks. rewrite Hblocks. by intros [bs ->].
Qed.

(** X17: when the identity source rejects, its rejection is thrown on, no
    request is sent and the cache is as it was; and no save ever sends more
    than one request. *)
Theorem protocolUpsert_requests (protocol : Protocol) (w : World) :
  let c := fst (protocolUpsert env protocol w) in
  let w' := snd (protocolUpsert env protocol w) in
  (forall e, auth0 env = JS.throw e ->
     c = JS.throw e /\ requests w' = requests w
     /\ protocolCache w' = protocolCache w)
  /\ exists sent, requests w' = requests w ++ sent /\ (length sent <= 1)%nat.
Proof.
  cbv zeta. split.
  - intros e Hauth.
    by rewrite (protocolUpsert_unauthenticated env protocol w e Hauth).
  - destruct (auth0 env) as [[]|e] eqn:Hauth.
    + eexists. split; [by apply protocolUpsert_sends|]. simpl. lia.
    + exists []. rewrite (protocolUpsert_unauthenticated env protocol w e Hauth).
      simpl. split; [by rewrite app_nil_r|lia].
Qed.

(** X18: a save changes the cache at the key of the returned record only:
    a save that does not complete leaves the cache as it was, and a key
    that is not the id of the server's answer keeps its entry, or its
    absence, in every case. *)
Theorem protocolUpsert_cache_frame (protocol : Protocol) (w : World) :
  let request :=
    {| request_method := upsertMethod protocol;
       request_path := upsertPath protocol;
       request_body := protocol |} in
  let c := fst (protocolUpsert env protocol w) in
  let w' := snd (protocolUpsert env protocol w) in
  (c ≠ JS.normal tt -> protocolCache w' = protocolCache w)
  /\ (forall k,
        (forall created, server env request = JS.normal created ->
                         protocol_id created ≠ Some k) ->
        protocolCache w' !! k = protocolCache w !! k).
Proof.
  cbv zeta. split.
  - destruct (protocolUpsert_outcome env protocol w)
      as (c & w' & -> & _ & [Hcache|Hdone]); simpl; [by rewrite Hcache|done].
  - intros k Hother.
    destruct (auth0 env) as [[]|e] eqn:Hauth;
      [|by rewrite (protocolUpsert_unauthenticated env protocol w e Hauth)].
    destruct (server env _) as [created|e] eqn:Hserver;
      [|by rewrite (protocolUpsert_rejected env protocol w e Hauth Hserver)].
    destruct (JS.truthy JS.truthy_number (protocol_id created)) eqn:Hid;
      [|by rewrite (protocolUpsert_without_id env protocol w created
                      Hauth Hserver Hid)].
    destruct (protocol_id created) as [i|] eqn:Hcreated; [|done].
    rewrite (protocolUpsert_created env protocol w created i
               Hauth Hserver Hcreated Hid).
    simpl. apply lookup_insert_ne. intros ->.
    by apply (Hother created).
Qed.

Lemma saveClicked_sends (routeId : JS.number) (remote : option Protocol)
    (w : World) :
  auth0 env = JS.normal tt ->
  JS.truthy_number routeId = false ->
  requests (snd (saveClicked env routeId remote w))
  = requests w
    ++ [{| request_method := "POST"; request_path := "protocol";
           request_body :=
             {| protocol_id := Some routeId;
                protocol_name := Some (currentName (page w) remote);
                protocol_description :=
                  Some (serializeSlate (currentDescription (page w) remote));
                protocol_blocks := Some (currentBlocks (page w) remote) |} |}].
Proof.
  intros Hauth Hroute. unfold saveClicked.
  rewrite protocolUpsert_sends by done.
  unfold upsertMethod, upsertPath. simpl. by rewrite Hroute.
Qed.

(** X19: the verb of a save depends on the route only.  On a page opened
    without a numeric id, a second save is a create like the first,
    whatever the server answered to the first; with the same remote record
    it sends the same record again. *)
Theorem saveClicked_creates_again (routeId : JS.number)
    (remote remote' : option Protocol) (w : World) :
  auth0 env = JS.normal tt ->
  JS.truthy_number routeId = false ->
  let w1 := snd (saveClicked env routeId remote w) in
  let w2 := snd (saveClicked env routeId remote' w1) in
  exists first second,
    requests w2 = requests w ++ [first; second]
    /\ request_method first = "POST" /\ request_path first = "protocol"
    /\ request_method second = "POST" /\ request_path second = "protocol"
    /\ (remote' = remote -> second = first).
Proof.
  intros Hauth Hroute. cbv zeta.
  rewrite (saveClicked_sends routeId remote' _ Hauth Hroute).
  rewrite (saveClicked_sends routeId remote w Hauth Hroute).
  rewrite <-app_assoc. eexists _, _. split; [reflexivity|].
  repeat split. intros ->. unfold saveClicked.
  destruct (protocolUpsert_page
              {| protocol_id := Some routeId;
                 protocol_name := Some (currentName (page w) remote);
                 protocol_description :=
                   Some (serializeSlate (currentDescription (page w) remote));
                 protocol_blocks := Some (currentBlocks (page w) remote) |} w)
    as (Hname & Hdescription & Hblocks).
  destruct (displayed_ext _ _ remote Hname Hdescription Hblocks)
    as (-> & -> & ->).
  done.
Qed.

End SavingMore.

Lemma protocolUpsert_keeps_edits_witness :
  let before :=
    {| protocol_id := Some (JS.Int 7); protocol_name := Some "A";
       protocol_description := Some "Mix"; protocol_blocks := Some [] |} in
  let after :=
    {| protocol_id := Some (JS.Int 7); protocol_name := Some "A (v2)";
       protocol_description := Some "Mix"; protocol_blocks := Some [] |} in
  let env :=
    {| auth0 := JS.normal tt; server := fun _ => JS.normal after;
       moment_format := "2020-06-01T12:00:00+00:00" |} in
  let w := {| page := setName "B" initialState;
              protocolCache := {[ JS.Int 7 := before ]}; requests := [] |} in
  let w' := snd (protocolUpsert env before w) in
  protocolCache w' !! JS.Int 7 = Some after
  /\ currentName (page w') (Some after) = "B"
  /\ currentName (page w) (Some before) = "B".
Proof.
  intros before after env w w'.
  destruct (protocolUpsert_keeps_edits env before w (Some before) (Some after))
    as (_ & _ & _ & Hedited & _).
  split; [reflexivity|]. split; [|reflexivity].
  fold w' in Hedited. rewrite Hedited; reflexivity.
Defined.

Lemma protocolUpsert_requests_witness :
  let unsaved :=
    {| protocol_id := None; protocol_name := Some "PCR";
       protocol_description := Some ""; protocol_blocks := Some [] |} in
  let env :=
    {| auth0 := JS.throw (JS.Rejection "login required");
       server := fun r => JS.normal (request_body r);
       moment_format := "2020-06-01T12:00:00+00:00" |} in
  let w := {| page := initialState; protocolCache := ∅; requests := [] |} in
  fst (protocolUpsert env unsaved w)
  = JS.throw (JS.Rejection "login required")
  /\ requests (snd (protocolUpsert env unsaved w)) = []
  /\ protocolCache (snd (protocolUpsert env unsaved w)) = ∅.
Proof.
  intros unsaved env w.
  destruct (protocolUpsert_requests env unsaved w) as [Hrejected _].
  exact (Hrejected (JS.Rejection "login required") eq_refl).
Defined.

Lemma protocolUpsert_cache_frame_witness :
  let other :=
    {| protocol_id := Some (JS.Int 7); protocol_name := Some "ELISA";
       protocol_description := Some ""; protocol_blocks := Some [] |} in
  let saved :=
    {| protocol_id := Some (JS.Int 42); protocol_name := Some "PCR";
       protocol_description := Some ""; protocol_blocks := Some [] |} in
  let env :=
    {| auth0 := JS.normal tt; server := fun _ => JS.normal saved;
       moment_format := "2020-06-01T12:00:00+00:00" |} in
  let w := {| page := initialState;
              protocolCache := {[ JS.Int 7 := other ]}; requests := [] |} in
  protocolCache (snd (protocolUpsert env saved w)) !! JS.Int 7 = Some other.
Proof.
  intros other saved env w.
  destruct (protocolUpsert_cache_frame env saved w) as [_ Hframe].
  rewrite (Hframe (JS.Int 7)); [reflexivity|].
  intros created [= <-]. discriminate.
Defined.

Lemma saveClicked_creates_again_witness :
  let saved :=
    {| protocol_id := Some (JS.Int 42); protocol_name := Some "";
       protocol_description := Some ""; protocol_blocks := Some [] |} in
  let env :=
    {| auth0 := JS.normal tt; server := fun _ => JS.normal saved;
       moment_format := "2020-06-01T12:00:00+00:00" |} in
  let w := {| page := initialState; protocolCache := ∅; requests := [] |} in
  exists first second,
    requests (snd (saveClicked env JS.NaN None
                     (snd (saveClicked env JS.NaN None w))))
    = [first; second]
    /\ request_method second = "POST" /\ second = first.
Proof.
  intros saved env w.
  destruct (saveClicked_creates_again env JS.NaN None None w eq_refl eq_refl)
    as (first & second & Hsent & _ & _ & Hmethod & _ & Hsame).
  exists first, second. split; [exact Hsent|]. split; [exact Hmethod|].
  by apply Hsame.
Defined.
